(** * chess-ai: the decision engine of logic.py and the game loop of gui.py

    A shallow embedding of the Q-table, the evaluator, the move orderer,
    the alpha-beta search, the iterative-deepening driver and the
    learning coordinator of [logic.py], and of the move recording and the
    end-of-game block of [gui.py], with the properties the specification
    states about them.

    Conventions.
    - The python-chess board is an abstract type with the operations the
      code calls on it (class [RulesEngine]); the code mutates one board
      object, which is threaded through every function as explicit state.
    - Scores of the evaluator are Python ints ([Z]); the search mixes them
      with [float('inf')] and [-float('inf')] (type [EZ]).
    - Q-values and rewards are Python floats; in the table they are
      idealised as exact rationals ([Q]).  Where rounding decides a
      property, the update step is taken in binary64 as the code computes
      it ([update_step_double]).
    - [time.time()] is an oracle [times]: [times 0] is the reading taken at
      the start of the driver, [times d] the one taken at the top of the
      iteration for depth [d]. *)

From Stdlib Require Import Floats.
From Stdlib Require Import ZArith QArith Qabs Lia Lqa Permutation Sorted.
From stdpp Require Import gmap strings list.

Local Open Scope Z_scope.

(** ** Scores with the two infinities *)

Inductive EZ : Type :=
| NegInf
| Fin (z : Z)
| PosInf.

#[global] Instance EZ_eq_dec : EqDecision EZ.
Proof. solve_decision. Defined.

(** [x <= y] on scores. *)
Definition ele (x y : EZ) : bool :=
  match x, y with
  | NegInf, _ => true
  | _, PosInf => true
  | Fin a, Fin b => a <=? b
  | _, _ => false
  end.

(** [x < y] on scores. *)
Definition elt (x y : EZ) : bool := negb (ele y x).

(** Python's [max(a, b)]: the first argument unless the second is greater. *)
Definition emax (a b : EZ) : EZ := if elt a b then b else a.

(** Python's [min(a, b)]: the first argument unless the second is smaller. *)
Definition emin (a b : EZ) : EZ := if elt b a then b else a.

(** ** The Q-table (class QTable) *)

Definition QTABLE_MAX_SIZE : Z := 10000.
Definition LEARNING_RATE : Q := (1 # 10)%Q.
Definition MAX_DEPTH : nat := 4%nat.
Definition TIME_LIMIT : Q := 1%Q.

Record QTable : Type := mkQTable {
  filename : string;
  max_size : Z;
  q : gmap string (gmap string Q)
}.

(** [self.q.get(fen, {}).get(move, 0)] *)
Definition get_q (t : QTable) (fen move : string) : Q :=
  default 0%Q (default ∅ (q t !! fen) !! move).

(** [QTable.update]: the row of [fen] is created when missing, then the
    entry of [move] is overwritten. *)
Definition update (t : QTable) (fen move : string) (reward alpha : Q) : QTable :=
  let q1 := match q t !! fen with
            | Some _ => q t
            | None => <[fen := ∅]> (q t)
            end in
  let row := default ∅ (q1 !! fen) in
  let old_q := default 0%Q (row !! move) in
  mkQTable (filename t) (max_size t)
    (<[fen := <[move := (old_q + alpha * (reward - old_q))%Q]> row]> q1).

(** The stored entry itself, [None] when the pair was never updated. *)
Definition entry (t : QTable) (fen move : string) : option Q :=
  q t !! fen ≫= (λ row, row !! move).

(** Descending order of the keys. *)
Definition desc {A} (key : A → Q) (x y : A) : Prop := (key y <= key x)%Q.

(** One application of the update rule to a stored value. *)
Definition update_step (alpha reward x : Q) : Q :=
  (x + alpha * (reward - x))%Q.

(** [n] successive calls of [update] with the same key, reward and rate. *)
Definition repeated_update (n : nat) (t : QTable) (fen move : string)
    (reward alpha : Q) : QTable :=
  Nat.iter n (λ t, update t fen move reward alpha) t.


(** ** Python's [sorted(moves, key=..., reverse=True)]

    [sorted] is stable, also with [reverse=True]: elements with equal keys
    keep their input order.  A stable sort by a total preorder has one
    possible result; it is computed here by insertion. *)

Definition Qltb (x y : Q) : bool := negb (Qle_bool y x).

Fixpoint insert_desc {A} (key : A → Q) (x : A) (l : list A) : list A :=
  match l with
  | [] => [x]
  | y :: l' => if Qltb (key x) (key y) then y :: insert_desc key x l'
               else x :: y :: l'
  end.

Definition sorted_reverse {A} (key : A → Q) (l : list A) : list A :=
  foldr (insert_desc key) [] l.

(** ** The rules engine (python-chess) *)

Inductive PieceType : Type := PAWN | KNIGHT | BISHOP | ROOK | QUEEN | KING.

(** [chess.WHITE] is [True], [chess.BLACK] is [False]. *)
Definition Color := bool.
Definition WHITE : Color := true.
Definition BLACK : Color := false.

(** Squares are numbered 0..63, A1 = 0, H8 = 63. *)
Definition Square := nat.
Definition D4 : Square := 27%nat.
Definition E4 : Square := 28%nat.
Definition D5 : Square := 35%nat.
Definition E5 : Square := 36%nat.

Record Piece : Type := mkPiece { piece_type : PieceType; color : Color }.

(** What the code calls on [chess.Board] and [chess.Move].  [push] and
    [pop] mutate the board; here they return the new board.
    [move_bool] is the truth value of a move object ([if move:]). *)
Class RulesEngine (Board Move : Type) : Type := {
  legal_moves : Board → list Move;
  push : Board → Move → Board;
  pop : Board → Board;
  reset : Board → Board;
  fen : Board → string;
  uci : Move → string;
  move_bool : Move → bool;
  turn : Board → Color;
  is_checkmate : Board → bool;
  is_stalemate : Board → bool;
  is_insufficient_material : Board → bool;
  is_game_over : Board → bool;
  pieces : Board → PieceType → Color → list Square;
  piece_at : Board → Square → option Piece
}.

(** The contract of make/unmake: [pop] undoes the last [push]. *)
Definition pop_undoes_push `{RulesEngine Board Move} : Prop :=
  ∀ (b : Board) (m : Move), pop (push b m) = b.

(** ** The board as state, with a ghost trace

    The code works on one mutable board.  [World] is that board together
    with a ghost trace of the calls that matter for the order of effects:
    every [board.push], every [board.pop] and every entry into
    [alpha_beta].  The trace is never read by the program. *)

Inductive Event (Move : Type) : Type :=
| EvPush (m : Move)
| EvPop
| EvSearch (depth : nat) (alpha beta : EZ) (maximizing : bool).
Arguments EvPush {Move} m.
Arguments EvPop {Move}.
Arguments EvSearch {Move} depth alpha beta maximizing.

Record World (Board Move : Type) : Type := mkWorld {
  board : Board;
  calls : list (Event Move)
}.
Arguments mkWorld {Board Move} board calls.
Arguments board {Board Move} w.
Arguments calls {Board Move} w.

(** Push/pop sequences in which every [pop] reverts the latest [push] not
    yet reverted, and nothing stays applied at the end. *)
Inductive balanced {Move : Type} : list (Event Move) → Prop :=
| balanced_nil : balanced []
| balanced_search d a b mx t :
    balanced t → balanced (EvSearch d a b mx :: t)
| balanced_push m t1 t2 :
    balanced t1 → balanced t2 → balanced (EvPush m :: t1 ++ EvPop :: t2).

(** [goal_test] answers with one of four strings. *)
Inductive Outcome : Type := Win | Loss | Draw | Ongoing.

Record ChessAI : Type := mkChessAI {
  qtable : QTable;
  max_depth : nat;
  time_limit : Q
}.

(** [search_tree]: depth -> (uci -> value). *)
Abbreviation SearchTree := (gmap nat (gmap string EZ)).

(** [search_tree[depth][key] = value] *)
Definition set_score (tree : SearchTree) (depth : nat) (key : string)
    (value : EZ) : SearchTree :=
  <[depth := <[key := value]> (default ∅ (tree !! depth))]> tree.

Definition piece_values : list (PieceType * Z) :=
  [(PAWN, 100); (KNIGHT, 300); (BISHOP, 350); (ROOK, 500); (QUEEN, 900);
   (KING, 0)].

Definition center_squares : list Square := [D4; D5; E4; E5].

Section Engine.
Context {Board Move : Type} `{RulesEngine Board Move}.

(** State monad over the world. *)
Definition M (A : Type) : Type := World Board Move → A * World Board Move.

#[global] Instance M_ret : MRet M := λ A a w, (a, w).
#[global] Instance M_bind : MBind M :=
  λ A B f m w, let '(a, w') := m w in f a w'.

Definition get_board : M Board := λ w, (board w, w).

Definition trace (e : Event Move) : M unit :=
  λ w, (tt, mkWorld (board w) (calls w ++ [e])).

(** [board.push(move)] *)
Definition board_push (move : Move) : M unit :=
  λ w, (tt, mkWorld (push (board w) move) (calls w ++ [EvPush move])).

(** [board.pop()] *)
Definition board_pop : M unit :=
  λ w, (tt, mkWorld (pop (board w)) (calls w ++ [EvPop])).

(** *** ChessAI.evaluate_board *)
Definition evaluate_board (b : Board) : Z :=
  if is_checkmate b then
    if bool_decide (turn b = WHITE) then -10000 else 10000
  else if is_stalemate b || is_insufficient_material b then 0
  else
    let score :=
      foldl (λ score '(piece_type, value),
               score + Z.of_nat (length (pieces b piece_type WHITE)) * value
                     - Z.of_nat (length (pieces b piece_type BLACK)) * value)
            0 piece_values in
    foldl (λ score square,
             match piece_at b square with
             | Some piece =>
                 score + (if bool_decide (color piece = WHITE) then 20 else -20)
             | None => score
             end)
          score center_squares.

(** *** ChessAI.get_ordered_moves *)
Definition get_ordered_moves (ai : ChessAI) (b : Board) : list Move :=
  let moves := legal_moves b in
  let fen := fen b in
  sorted_reverse (λ m, get_q (qtable ai) fen (uci m)) moves.

(** *** ChessAI.alpha_beta

    The two [for] loops, with their [break].  [search alpha beta] is the
    recursive call at [depth - 1] with the other player to move. *)
Fixpoint max_loop (search : EZ → EZ → M EZ) (beta : EZ)
    (moves : list Move) (value alpha : EZ) : M EZ :=
  match moves with
  | [] => mret value
  | move :: rest =>
      _ ← board_push move;
      r ← search alpha beta;
      let value := emax value r in
      _ ← board_pop;
      let alpha := emax alpha value in
      if ele beta alpha then mret value
      else max_loop search beta rest value alpha
  end.

Fixpoint min_loop (search : EZ → EZ → M EZ) (alpha : EZ)
    (moves : list Move) (value beta : EZ) : M EZ :=
  match moves with
  | [] => mret value
  | move :: rest =>
      _ ← board_push move;
      r ← search alpha beta;
      let value := emin value r in
      _ ← board_pop;
      let beta := emin beta value in
      if ele beta alpha then mret value
      else min_loop search alpha rest value beta
  end.

Fixpoint alpha_beta (ai : ChessAI) (depth : nat) (alpha beta : EZ)
    (maximizing : bool) : M EZ :=
  _ ← trace (EvSearch depth alpha beta maximizing);
  b ← get_board;
  match depth with
  | O => mret (Fin (evaluate_board b))
  | S depth' =>
      if is_game_over b then mret (Fin (evaluate_board b))
      else
        let moves := get_ordered_moves ai b in
        match moves with
        | [] => mret (Fin (evaluate_board b))
        | _ :: _ =>
            if maximizing then
              max_loop (λ alpha beta, alpha_beta ai depth' alpha beta false)
                       beta moves NegInf alpha
            else
              min_loop (λ alpha beta, alpha_beta ai depth' alpha beta true)
                       alpha moves PosInf beta
        end
  end.

(** *** ChessAI.iterative_deepening *)

(** The loop over the root moves at one depth. *)
Fixpoint root_loop (ai : ChessAI) (depth : nat) (moves : list Move)
    (alpha beta : EZ) (current_best : option Move) (current_value : EZ)
    (search_tree : SearchTree) : M (option Move * EZ * SearchTree) :=
  match moves with
  | [] => mret (current_best, current_value, search_tree)
  | move :: rest =>
      _ ← board_push move;
      value ← alpha_beta ai (depth - 1) alpha beta false;
      _ ← board_pop;
      let search_tree := set_score search_tree depth (uci move) value in
      let '(current_value, current_best) :=
        if elt current_value value then (value, Some move)
        else (current_value, current_best) in
      let alpha := emax alpha value in
      root_loop ai depth rest alpha beta current_best current_value
                search_tree
  end.

(** [if current_best:] and [if best_move:] *)
Definition truthy (m : option Move) : bool :=
  match m with
  | Some mv => move_bool mv
  | None => false
  end.

(** The loop over the depths, with its [break] on the time limit. *)
Fixpoint depth_loop (ai : ChessAI) (times : nat → Q) (start_time : Q)
    (legal : list Move) (depths : list nat) (best_move : option Move)
    (best_value : EZ) (search_tree : SearchTree)
    : M (option Move * SearchTree) :=
  match depths with
  | [] => mret (best_move, search_tree)
  | depth :: rest =>
      if Qltb (time_limit ai) (times depth - start_time)
      then mret (best_move, search_tree)
      else
        let current_best := best_move in
        let search_tree := <[depth := ∅]> search_tree in
        '(current_best, current_value, search_tree) ←
          root_loop ai depth legal NegInf PosInf current_best NegInf
                    search_tree;
        if truthy current_best
        then depth_loop ai times start_time legal rest current_best
                        current_value search_tree
        else depth_loop ai times start_time legal rest best_move
                        best_value search_tree
  end.

Definition iterative_deepening (ai : ChessAI) (times : nat → Q)
    : M (option Move * option SearchTree) :=
  let start_time := times O in
  b ← get_board;
  let legal := get_ordered_moves ai b in
  match legal with
  | [] => mret (None, None)
  | _ :: _ =>
      '(best_move, search_tree) ←
        depth_loop ai times start_time legal (seq 1 (max_depth ai))
                   None NegInf ∅;
      mret (best_move, Some search_tree)
  end.

(** *** ChessAI.compute_best_move

    Returns the move, the search tree and the Q-table of the AI after the
    call (the table is mutated in place by the code). *)
Definition compute_best_move (ai : ChessAI) (times : nat → Q)
    : M (option Move * option SearchTree * QTable) :=
  b ← get_board;
  let fen := fen b in
  let prev_score := evaluate_board b in
  '(best_move, search_tree) ← iterative_deepening ai times;
  match best_move with
  | Some mv =>
      if move_bool mv then
        _ ← board_push mv;
        b' ← get_board;
        let new_score := evaluate_board b' in
        let reward := (inject_Z (new_score - prev_score) / 100)%Q in
        let qt := update (qtable ai) fen (uci mv) reward LEARNING_RATE in
        _ ← board_pop;
        mret (best_move, search_tree, qt)
      else mret (best_move, search_tree, qtable ai)
  | None => mret (best_move, search_tree, qtable ai)
  end.

(** *** ChessAI.goal_test *)
Definition goal_test (b : Board) : Outcome :=
  if is_checkmate b then
    if negb (bool_decide (turn b = WHITE)) then Win else Loss
  else if is_stalemate b || is_insufficient_material b then Draw
  else Ongoing.

End Engine.


(** ** The game loop of gui.py

    Only what decides the learning signal is kept: the board, the two
    Q-tables, the mode chosen in the menu and the move history.  Drawing,
    events, the hint key and [QTable.save] are left out. *)

Record Game (Board : Type) : Type := mkGame {
  g_board : Board;
  qtable1 : QTable;
  qtable2 : option QTable;
  self_play : bool;
  player_side : option Color;
  move_history : list (string * string);
  move_count : Z
}.
Arguments mkGame {Board} g_board qtable1 qtable2 self_play player_side
  move_history move_count.
Arguments g_board {Board} g.
Arguments qtable1 {Board} g.
Arguments qtable2 {Board} g.
Arguments self_play {Board} g.
Arguments player_side {Board} g.
Arguments move_history {Board} g.
Arguments move_count {Board} g.

(** [reward = 1 if result == "Win" else -1 if result == "Loss" else 0] *)
Definition terminal_reward (result : Outcome) : Q :=
  match result with
  | Win => 1
  | Loss => -1
  | _ => 0
  end%Q.

Section GameLoop.
Context {Board Move : Type} `{RulesEngine Board Move} `{EqDecision Move}.

(** [ai1 = ChessAI(qtable1)], [ai2 = ChessAI(qtable2)] *)
Definition make_ai (t : QTable) : ChessAI := mkChessAI t MAX_DEPTH TIME_LIMIT.

(** gui.py, the mouse branch once a square is selected: the clicked move
    is played when it is legal.  The caller has checked
    [not self_play and board.turn == player_side]. *)
Definition human_move (move : Move) (g : Game Board) : Game Board :=
  if bool_decide (move ∈ legal_moves (g_board g)) then
    let b := push (g_board g) move in
    mkGame b (qtable1 g) (qtable2 g) (self_play g) (player_side g)
           (move_history g ++ [(fen b, uci move)]) (move_count g + 1)
  else g.

(** [board.turn != player_side], where [player_side] is [None] in
    self-play. *)
Definition not_player_turn (g : Game Board) : bool :=
  match player_side g with
  | Some side => negb (bool_decide (turn (g_board g) = side))
  | None => true
  end.

(** gui.py, "AI move".  In self-play Black is played by [ai2]; that it
    exists whenever [self_play] is set is fixed at start-up, the other
    case leaves the game as it is. *)
Definition ai_move (times : nat → Q) (g : Game Board) : Game Board :=
  if is_game_over (g_board g) then g
  else if self_play g || (negb (self_play g) && not_player_turn g) then
    let second := negb (bool_decide (turn (g_board g) = WHITE)) && self_play g in
    match (if second then qtable2 g else Some (qtable1 g)) with
    | None => g
    | Some t =>
        let '(move, _, t', w) :=
          compute_best_move (make_ai t) times (mkWorld (g_board g) []) in
        let q1 := if second then qtable1 g else t' in
        let q2 := if second then Some t' else qtable2 g in
        match move with
        | Some mv =>
            if move_bool mv then
              let b := push (board w) mv in
              mkGame b q1 q2 (self_play g) (player_side g)
                     (move_history g ++ [(fen b, uci mv)]) (move_count g + 1)
            else mkGame (board w) q1 q2 (self_play g) (player_side g)
                        (move_history g) (move_count g)
        | None => mkGame (board w) q1 q2 (self_play g) (player_side g)
                         (move_history g) (move_count g)
        end
    end
  else g.

(** gui.py, [if board.is_game_over():] ... the replay of the terminal
    reward over the move history, then the reset for the next game. *)
Definition game_over_block (g : Game Board) : Game Board :=
  if is_game_over (g_board g) then
    let result := goal_test (g_board g) in
    let reward := terminal_reward result in
    let '(q1, q2) :=
      foldl (λ '(q1, q2) '(fen, move),
               (update q1 fen move reward LEARNING_RATE,
                (λ t, update t fen move (- reward)%Q LEARNING_RATE) <$> q2))
            (qtable1 g, qtable2 g) (move_history g) in
    mkGame (reset (g_board g)) q1 q2 (self_play g) (player_side g) [] 0
  else g.

End GameLoop.


(** ** A rules engine over explicit game trees

    Synthetic games for running the code: a position is a node of a finite
    tree, a move is the index of a child, and the board keeps the stack of
    the positions it came through, as python-chess does. *)

Module TreeGame.

Record Label : Type := mkLabel {
  l_fen : string;
  l_turn : Color;
  l_checkmate : bool;
  l_stalemate : bool;
  l_insufficient : bool;
  l_white_pawns : nat;
  l_black_pawns : nat
}.

#[warnings="-register-all"]
Inductive GameTree : Type :=
| Node (label : Label) (children : list GameTree).

Definition label (t : GameTree) : Label :=
  match t with Node l _ => l end.

Definition children (t : GameTree) : list GameTree :=
  match t with Node _ c => c end.

Record TreeBoard : Type := mkTreeBoard {
  current : GameTree;
  stack : list GameTree
}.

Definition tree_push (b : TreeBoard) (i : nat) : TreeBoard :=
  mkTreeBoard (nth i (children (current b)) (current b))
              (current b :: stack b).

Definition tree_pop (b : TreeBoard) : TreeBoard :=
  match stack b with
  | [] => b
  | t :: rest => mkTreeBoard t rest
  end.

Definition tree_reset (b : TreeBoard) : TreeBoard :=
  mkTreeBoard (default (current b) (last (stack b))) [].

Definition tree_game_over (b : TreeBoard) : bool :=
  l_checkmate (label (current b)) || l_stalemate (label (current b))
  || l_insufficient (label (current b)).

(** Pawns stand on the second and seventh ranks onwards, off the centre. *)
Definition tree_pieces (b : TreeBoard) (pt : PieceType) (c : Color)
    : list Square :=
  match pt with
  | PAWN => if c then seq 8 (l_white_pawns (label (current b)))
            else seq 48 (l_black_pawns (label (current b)))
  | _ => []
  end.

#[global] Instance tree_engine : RulesEngine TreeBoard nat := {|
  legal_moves b :=
    if tree_game_over b then [] else seq 0 (length (children (current b)));
  push := tree_push;
  pop := tree_pop;
  reset := tree_reset;
  fen b := l_fen (label (current b));
  uci i := String (Ascii.ascii_of_nat (97 + i)) EmptyString;
  move_bool _ := true;
  turn b := l_turn (label (current b));
  is_checkmate b := l_checkmate (label (current b));
  is_stalemate b := l_stalemate (label (current b));
  is_insufficient_material b := l_insufficient (label (current b));
  is_game_over := tree_game_over;
  pieces := tree_pieces;
  piece_at _ _ := None
|}.

(** A quiet position worth [100 * (wp - bp)]. *)
Definition quiet (name : string) (side : Color) (wp bp : nat)
    (kids : list GameTree) : GameTree :=
  Node (mkLabel name side false false false wp bp) kids.

(** A position in which the side to move is mated. *)
Definition mated (name : string) (side : Color) : GameTree :=
  Node (mkLabel name side true false false 0 0) [].

Definition start (t : GameTree) : TreeBoard := mkTreeBoard t [].

Definition empty_table (name : string) : QTable :=
  mkQTable name QTABLE_MAX_SIZE ∅.

(** White to move; move a reaches a position worth 500, move b one where
    Black chooses between 300 and 100. *)
Definition two_replies : GameTree :=
  quiet "root" WHITE 0 0
    [ quiet "A" BLACK 5 0 [];
      quiet "B" BLACK 0 0
        [ quiet "B1" WHITE 3 0 []; quiet "B2" WHITE 1 0 [] ] ].

(** White to move and mate in one (move a); move b wins a pawn. *)
Definition mate_in_one : GameTree :=
  quiet "root" WHITE 0 0
    [ mated "mate" BLACK; quiet "quiet" BLACK 1 0 [] ].

(** The clock never advances. *)
Definition frozen_clock : nat → Q := λ _, 0%Q.

(** White to move; move a reaches a position worth 500 from which Black
    reaches one worth 0, move b a position worth 100 from which Black
    reaches one worth 100.  One ply deep a is best, two plies deep b. *)
Definition second_thoughts : GameTree :=
  quiet "root" WHITE 0 0
    [ quiet "A" BLACK 5 0 [ quiet "A1" WHITE 0 0 [] ];
      quiet "B" BLACK 1 0 [ quiet "B1" WHITE 1 0 [] ] ].

(** The clock reads 0 at the start and at the top of depth 1, 1/2 at the
    top of depth 2 and 5 from then on: depth 2 takes 4.5 seconds. *)
Definition slow_second_depth : nat → Q :=
  λ n, match n with
       | 0%nat | 1%nat => 0%Q
       | 2%nat => (1 # 2)%Q
       | _ => 5%Q
       end.

(** A game of self-play from [mate_in_one], both tables empty, and the
    same game after the first AI move. *)
Definition self_play_start : Game TreeBoard :=
  mkGame (start mate_in_one) (empty_table "q1.pkl")
         (Some (empty_table "q2.pkl")) true None [] 0.

Definition self_play_after_one : Game TreeBoard :=
  ai_move frozen_clock self_play_start.


(** A finished game of self-play (Black is mated) with a given history. *)
Definition finished_game (history : list (string * string)) : Game TreeBoard :=
  mkGame (tree_push (start mate_in_one) 0) (empty_table "q1.pkl")
         (Some (empty_table "q2.pkl")) true None history
         (Z.of_nat (length history)).


End TreeGame.


(** ** Values, without the board bookkeeping

    What the loops of [alpha_beta] compute when every [pop] restores the
    board: the same loops over the positions reached by [push] alone.
    [alpha_beta_run] below proves that the code computes these values. *)

Section Values.
Context {Board Move : Type} `{RulesEngine Board Move}.

Fixpoint max_value (child : Move → EZ → EZ → EZ) (beta : EZ)
    (moves : list Move) (value alpha : EZ) : EZ :=
  match moves with
  | [] => value
  | move :: rest =>
      let value := emax value (child move alpha beta) in
      let alpha := emax alpha value in
      if ele beta alpha then value
      else max_value child beta rest value alpha
  end.

Fixpoint min_value (child : Move → EZ → EZ → EZ) (alpha : EZ)
    (moves : list Move) (value beta : EZ) : EZ :=
  match moves with
  | [] => value
  | move :: rest =>
      let value := emin value (child move alpha beta) in
      let beta := emin beta value in
      if ele beta alpha then value
      else min_value child alpha rest value beta
  end.

Fixpoint search_value (ai : ChessAI) (depth : nat) (alpha beta : EZ)
    (maximizing : bool) (b : Board) : EZ :=
  match depth with
  | O => Fin (evaluate_board b)
  | S depth' =>
      if is_game_over b then Fin (evaluate_board b)
      else
        match get_ordered_moves ai b with
        | [] => Fin (evaluate_board b)
        | moves =>
            if maximizing then
              max_value (λ m alpha beta,
                           search_value ai depth' alpha beta false (push b m))
                        beta moves NegInf alpha
            else
              min_value (λ m alpha beta,
                           search_value ai depth' alpha beta true (push b m))
                        alpha moves PosInf beta
        end
  end.

(** The unpruned minimax of the specification: every legal move of every
    position is searched down to the depth limit, in the engine's own
    enumeration order. *)
Fixpoint minimax (depth : nat) (maximizing : bool) (b : Board) : EZ :=
  match depth with
  | O => Fin (evaluate_board b)
  | S depth' =>
      if is_game_over b then Fin (evaluate_board b)
      else
        match legal_moves b with
        | [] => Fin (evaluate_board b)
        | moves =>
            let replies :=
              map (λ m, minimax depth' (negb maximizing) (push b m)) moves in
            if maximizing then foldl emax NegInf replies
            else foldl emin PosInf replies
        end
  end.

(** The loops of the driver, likewise. *)
Fixpoint root_result (ai : ChessAI) (depth : nat) (b : Board)
    (moves : list Move) (alpha beta : EZ) (current_best : option Move)
    (current_value : EZ) (search_tree : SearchTree)
    : option Move * EZ * SearchTree :=
  match moves with
  | [] => (current_best, current_value, search_tree)
  | move :: rest =>
      let value := search_value ai (depth - 1) alpha beta false (push b move) in
      let search_tree := set_score search_tree depth (uci move) value in
      let '(current_value, current_best) :=
        if elt current_value value then (value, Some move)
        else (current_value, current_best) in
      let alpha := emax alpha value in
      root_result ai depth b rest alpha beta current_best current_value
                  search_tree
  end.

Fixpoint depth_result (ai : ChessAI) (times : nat → Q) (start_time : Q)
    (b : Board) (legal : list Move) (depths : list nat)
    (best_move : option Move) (best_value : EZ) (search_tree : SearchTree)
    : option Move * SearchTree :=
  match depths with
  | [] => (best_move, search_tree)
  | depth :: rest =>
      if Qltb (time_limit ai) (times depth - start_time)
      then (best_move, search_tree)
      else
        let '(current_best, current_value, search_tree) :=
          root_result ai depth b legal NegInf PosInf best_move NegInf
                      (<[depth := ∅]> search_tree) in
        if truthy current_best
        then depth_result ai times start_time b legal rest current_best
                          current_value search_tree
        else depth_result ai times start_time b legal rest best_move
                          best_value search_tree
  end.

Definition driver_result (ai : ChessAI) (times : nat → Q) (b : Board)
    : option Move * option SearchTree :=
  match get_ordered_moves ai b with
  | [] => (None, None)
  | legal =>
      let '(best_move, search_tree) :=
        depth_result ai times (times O) b legal (seq 1 (max_depth ai))
                     None NegInf ∅ in
      (best_move, Some search_tree)
  end.

Definition decision_result (ai : ChessAI) (times : nat → Q) (b : Board)
    : option Move * option SearchTree * QTable :=
  let '(best_move, search_tree) := driver_result ai times b in
  match best_move with
  | Some mv =>
      if move_bool mv then
        let reward :=
          (inject_Z (evaluate_board (push b mv) - evaluate_board b) / 100)%Q in
        (best_move, search_tree,
         update (qtable ai) (fen b) (uci mv) reward LEARNING_RATE)
      else (best_move, search_tree, qtable ai)
  | None => (best_move, search_tree, qtable ai)
  end.


(** The values the driver records for the root moves at one depth, in
    order: each is searched with the window whose lower end is the
    greatest value recorded before it. *)
Fixpoint root_values (ai : ChessAI) (depth : nat) (b : Board)
    (moves : list Move) (alpha : EZ) : list EZ :=
  match moves with
  | [] => []
  | move :: rest =>
      let value :=
        search_value ai (depth - 1) alpha PosInf false (push b move) in
      value :: root_values ai depth b rest (emax alpha value)
  end.

(** The best move and value tracked over a row of values: replaced only
    by a strictly greater value. *)
Fixpoint pick (moves : list Move) (values : list EZ)
    (current_best : option Move) (current_value : EZ) : option Move * EZ :=
  match moves, values with
  | move :: moves', value :: values' =>
      if elt current_value value then pick moves' values' (Some move) value
      else pick moves' values' current_best current_value
  | _, _ => (current_best, current_value)
  end.

(** The score table after recording a row of values at [depth]. *)
Definition fill (tree : SearchTree) (depth : nat) (moves : list Move)
    (values : list EZ) : SearchTree :=
  foldl (λ tree '(move, value), set_score tree depth (uci move) value)
        tree (zip moves values).

Definition fill_row (row : gmap string EZ) (moves : list Move)
    (values : list EZ) : gmap string EZ :=
  foldl (λ row '(move, value), <[uci move := value]> row)
        row (zip moves values).

(** How many depths the driver completes: the depths, in order, up to the
    first one at whose start the time limit is exceeded. *)
Fixpoint completed (ai : ChessAI) (times : nat → Q) (start_time : Q)
    (depths : list nat) : nat :=
  match depths with
  | [] => O
  | depth :: rest =>
      if Qltb (time_limit ai) (times depth - start_time) then O
      else S (completed ai times start_time rest)
  end.

(** How many depths run to their end within the budget: the depths, in
    order, up to the first one at whose start or at whose end the time
    limit is exceeded.  The clock is read at the top of every depth only,
    so the reading at the end of [depth] is the next one,
    [times (S depth)]. *)
Fixpoint finished (ai : ChessAI) (times : nat → Q) (start_time : Q)
    (depths : list nat) : nat :=
  match depths with
  | [] => O
  | depth :: rest =>
      if Qltb (time_limit ai) (times depth - start_time) then O
      else if Qltb (time_limit ai) (times (S depth) - start_time) then O
      else S (finished ai times start_time rest)
  end.


(** The score table after recording the rows of [depths], and the move the
    driver holds after them: the one picked at the last of them. *)
Definition record_rows (ai : ChessAI) (b : Board) (legal : list Move)
    (tree : SearchTree) (depths : list nat) : SearchTree :=
  foldl (λ tree d,
           fill (<[d := ∅]> tree) d legal (root_values ai d b legal NegInf))
        tree depths.

Definition best_at (ai : ChessAI) (b : Board) (legal : list Move)
    (d : nat) : option Move :=
  (pick legal (root_values ai d b legal NegInf) None NegInf).1.


End Values.

(** ** Calls that give the board back

    [restores m v]: run from any world, [m] returns [v] of the current
    position, leaves the board as it found it, and the pushes and pops it
    made are balanced. *)

Definition restores {Board Move : Type} {A : Type}
    (m : World Board Move → A * World Board Move) (v : Board → A) : Prop :=
  ∀ w, ∃ t, balanced t ∧ m w = (v (board w), mkWorld (board w) (calls w ++ t)).


(** [within alpha beta r v]: what a fail-soft search with window
    [(alpha, beta)] may answer for a position whose minimax value is [v]:
    the value itself inside the window, a bound of it outside. *)
Definition within (alpha beta r v : EZ) : Prop :=
  (ele r alpha = true → ele v r = true) ∧
  (ele beta r = true → ele r v = true) ∧
  (elt alpha r = true → elt r beta = true → r = v).


(** The reading of C2 in which every recorded value is exact: each row of
    the score table holds, for each legal root move, the minimax value of
    the position after it at the remaining depth. *)
Definition score_table_exact {Board Move : Type} `{RulesEngine Board Move}
    (ai : ChessAI) (times : nat → Q) (w : World Board Move) : Prop :=
  ∀ (tree : SearchTree) (d : nat) (row : gmap string EZ) (m : Move),
    (iterative_deepening ai times w).1.2 = Some tree →
    tree !! d = Some row →
    m ∈ legal_moves (board w) →
    row !! uci m = Some (minimax (d - 1) false (push (board w) m)).


(** The reading of C1, for a game of self-play, in which [ai1] plays White
    and owns the first table and [ai2] plays Black and owns the second.
    [plays] lists the moves of the game with the position each was played
    from.  Each table is credited for the plays of its owner only, under
    the identity of the position the move was played from. *)
Definition credit {Board Move : Type} `{RulesEngine Board Move}
    (reward : Q) (plays : list (Board * Move)) (t : QTable) : QTable :=
  foldl (λ t '(b, m), update t (fen b) (uci m) reward LEARNING_RATE) t plays.

Definition played_by {Board Move : Type} `{RulesEngine Board Move}
    (side : Color) (plays : list (Board * Move)) : list (Board * Move) :=
  List.filter (λ '(b, _), bool_decide (turn b = side)) plays.

Definition terminal_credit_as_stated {Board Move : Type}
    `{RulesEngine Board Move} `{EqDecision Move}
    (plays : list (Board * Move)) (g : Game Board) : Prop :=
  let reward := terminal_reward (goal_test (g_board g)) in
  qtable1 (game_over_block g)
  = credit reward (played_by WHITE plays) (qtable1 g) ∧
  qtable2 (game_over_block g)
  = credit (- reward)%Q (played_by BLACK plays) <$> qtable2 g.

(** The replay of one reward over a move history. *)
Definition replay (reward : Q) (history : list (string * string))
    (t : QTable) : QTable :=
  foldl (λ t '(fen, move), update t fen move reward LEARNING_RATE) t history.


(** Case analysis on scores, closed by linear arithmetic. *)
Ltac ez_case a b :=
  let c := fresh "c" in
  let E := fresh "E" in
  remember (a <=? b)%Z as c eqn:E; symmetry in E; destruct c;
  [apply Z.leb_le in E | apply Z.leb_gt in E]; simpl in *.

Ltac ez :=
  intros; unfold emax, emin, elt in *;
  repeat match goal with x : EZ |- _ => destruct x end;
  simpl in *;
  repeat match goal with
         | H : context [(?a <=? ?b)%Z] |- _ => ez_case a b
         | |- context [(?a <=? ?b)%Z] => ez_case a b
         end;
  try first [ discriminate | congruence | lia | f_equal; lia ].

(** ** Further code of logic.py and gui.py *)

(** How often a (position, move) pair occurs in a move history. *)
Definition occurrences (key : string * string)
    (history : list (string * string)) : nat :=
  length (filter (λ e, e = key) history).

(** The vertical flip of a square (a1 <-> a8) and a piece of the other
    colour. *)
Definition flip_square (sq : Square) : Square :=
  (8 * (7 - sq / 8) + sq mod 8)%nat.

Definition flip_piece (p : Piece) : Piece :=
  mkPiece (piece_type p) (negb (color p)).

(** [b'] is [b] with the colours exchanged: the other side to move, every
    piece replaced by one of the other colour on the vertically flipped
    square, the same terminal flags. *)
Record mirrored {Board Move : Type} `{RulesEngine Board Move}
    (b b' : Board) : Prop := {
  mirrored_turn : turn b' = negb (turn b);
  mirrored_checkmate : is_checkmate b' = is_checkmate b;
  mirrored_stalemate : is_stalemate b' = is_stalemate b;
  mirrored_insufficient :
    is_insufficient_material b' = is_insufficient_material b;
  mirrored_pieces :
    ∀ pt c, length (pieces b' pt c) = length (pieces b pt (negb c));
  mirrored_piece_at :
    ∀ sq, (sq < 64)%nat →
          piece_at b' (flip_square sq) = flip_piece <$> piece_at b sq
}.


(** *** gui.py: start-up, the hint key, the reachable games *)

Section GameMore.
Context {Board Move : Type} `{RulesEngine Board Move} `{EqDecision Move}.

(** gui.py, "Initialize game state": [menu] answers [(chess.WHITE, False)]
    for a game against the human and [(None, True)] for self-play; the
    second table exists in self-play only.  The tables are the ones
    [QTable('q1.pkl')] and [QTable('q2.pkl')] loaded. *)
Definition initial_game (self_play : bool) (b0 : Board) (t1 t2 : QTable)
    : Game Board :=
  mkGame b0 t1 (if self_play then Some t2 else None) self_play
         (if self_play then None else Some WHITE) [] 0.

(** gui.py, the key h: [if event.key == pygame.K_h and not self_play and
    board.turn == player_side] the first AI computes a hint.  The answer
    is the game after the key and, when the key is not ignored, the new
    [hint_move] and [last_search_tree]. *)
Definition hint_key (times : nat → Q) (g : Game Board)
    : Game Board * option (option Move * option SearchTree) :=
  if negb (self_play g) && negb (not_player_turn g) then
    let '(hint_move, search_tree, t', w) :=
      compute_best_move (make_ai (qtable1 g)) times
                        (mkWorld (g_board g) []) in
    (mkGame (board w) t' (qtable2 g) (self_play g) (player_side g)
            (move_history g) (move_count g),
     Some (hint_move, search_tree))
  else (g, None).

(** The games the loop can be in: the initial one, and the ones reached
    by a legal click of the human on their turn, by the AI block and by
    the end-of-game block. *)
Inductive reachable (g0 : Game Board) : Game Board → Prop :=
| reachable_start : reachable g0 g0
| reachable_human move g :
    reachable g0 g →
    self_play g = false → not_player_turn g = false →
    reachable g0 (human_move move g)
| reachable_hint times g :
    reachable g0 g → reachable g0 (hint_key times g).1
| reachable_ai times g :
    reachable g0 g → reachable g0 (ai_move times g)
| reachable_over g :
    reachable g0 g → reachable g0 (game_over_block g).

End GameMore.

(** *** gui.py: squares and pixels *)

Definition SQUARE_SIZE : Z := 80.

(** python-chess: [square_file(square) = square & 7],
    [square_rank(square) = square >> 3],
    [square(file_index, rank_index) = rank_index * 8 + file_index]. *)
Definition square_file (sq : Z) : Z := Z.land sq 7.
Definition square_rank (sq : Z) : Z := Z.shiftr sq 3.
Definition square (file_index rank_index : Z) : Z :=
  rank_index * 8 + file_index.

(** [offset_x], [offset_y] for a window of the given size ([//] is the
    floor division). *)
Definition board_offset (width height : Z) : Z * Z :=
  let board_size := SQUARE_SIZE * 8 in
  ((width - board_size) / 2, (height - board_size) / 2).

(** gui.py [main], MOUSEBUTTONDOWN: the square under the pixel [(x, y)],
    if the pixel is on the board. *)
Definition clicked_square (width height x y : Z) : option Z :=
  let '(offset_x, offset_y) := board_offset width height in
  let file := (x - offset_x) / SQUARE_SIZE in
  let rank := (y - offset_y) / SQUARE_SIZE in
  if (0 <=? file) && (file <? 8) && (0 <=? rank) && (rank <? 8)
  then Some (square file (7 - rank))
  else None.

(** gui.py [draw]: the top left pixel of the cell in which the piece on
    [sq] is drawn. *)
Definition piece_position (width height sq : Z) : Z * Z :=
  let '(offset_x, offset_y) := board_offset width height in
  let file := square_file sq in
  let rank := 7 - square_rank sq in
  (offset_x + file * SQUARE_SIZE, offset_y + rank * SQUARE_SIZE).

(** gui.py [draw]: the top left pixel of a highlighted cell given by its
    screen file and rank. *)
Definition cell_position (width height : Z) (cell : Z * Z) : Z * Z :=
  let '(offset_x, offset_y) := board_offset width height in
  (offset_x + cell.1 * SQUARE_SIZE, offset_y + cell.2 * SQUARE_SIZE).

(** gui.py [get_valid_moves]; [from_square] and [to_square] are the
    attributes of [chess.Move]. *)
Definition get_valid_moves {Board Move : Type} `{RulesEngine Board Move}
    (from_square to_square : Move → Z) (b : Board) (sq : Z) : list (Z * Z) :=
  map (λ m, (square_file (to_square m), 7 - square_rank (to_square m)))
      (filter (λ m, from_square m = sq) (legal_moves b)).


(** ** The update step in the code's own arithmetic

    [QTable.update] evaluates [old_q + alpha * (reward - old_q)] on Python
    floats, that is on IEEE 754 binary64 numbers with rounding to nearest
    after each operation. *)
Definition update_step_double (alpha reward old_q : float) : float :=
  PrimFloat.add old_q (PrimFloat.mul alpha (PrimFloat.sub reward old_q)).

(** Python's [0.1], the double nearest to one tenth: [LEARNING_RATE]. *)
Definition LEARNING_RATE_double : float := 0x1.999999999999ap-4%float.

(** The table with the values as the code holds them, and [get_q] and
    [update] on it. *)
Abbreviation DoubleTable := (gmap string (gmap string float)).

Definition get_q_double (q : DoubleTable) (fen move : string) : float :=
  default 0%float (default ∅ (q !! fen) !! move).

Definition entry_double (q : DoubleTable) (fen move : string) : option float :=
  q !! fen ≫= (λ row, row !! move).

Definition update_double (q : DoubleTable) (fen move : string)
    (reward alpha : float) : DoubleTable :=
  let q1 := match q !! fen with
            | Some _ => q
            | None => <[fen := ∅]> q
            end in
  let row := default ∅ (q1 !! fen) in
  let old_q := default 0%float (row !! move) in
  <[fen := <[move := PrimFloat.add old_q
                       (PrimFloat.mul alpha (PrimFloat.sub reward old_q))]>
             row]> q1.

Definition repeated_update_double (n : nat) (q : DoubleTable)
    (fen move : string) (reward alpha : float) : DoubleTable :=
  Nat.iter n (λ q, update_double q fen move reward alpha) q.

(** The value stored after [n] updates of an unset key, which starts from
    [0.0], with the same reward and rate. *)
Definition repeated_step_double (alpha reward : float) (n : nat) : float :=
  Nat.iter n (update_step_double alpha reward) 0%float.

(** The double just below 1 at which these updates stop:
    0.99999999999999956. *)
Definition stalled_value : float := 0x1.ffffffffffffcp-1%float.

(** The values come as close to [r] as one wishes. *)
Definition converges_double (x : nat → float) (r : float) : Prop :=
  ∀ eps : float,
    PrimFloat.ltb 0%float eps = true →
    ∃ N : nat, ∀ n : nat,
      (N ≤ n)%nat →
      PrimFloat.ltb (PrimFloat.abs (PrimFloat.sub (x n) r)) eps = true.

(** C8 as the specification states it, on the values the code stores:
    repeated updates of one key with the same reward give stored values
    that never move away from the reward and come as close to it as one
    wishes. *)
Definition updates_converge (q : DoubleTable) (fen move : string)
    (reward alpha : float) : Prop :=
  let x (n : nat) :=
    get_q_double (repeated_update_double n q fen move reward alpha) fen move in
  PrimFloat.ltb 0%float alpha = true →
  PrimFloat.ltb alpha 1%float = true →
  (∀ n : nat,
     PrimFloat.leb (PrimFloat.abs (PrimFloat.sub (x (S n)) reward))
                   (PrimFloat.abs (PrimFloat.sub (x n) reward)) = true) ∧
  converges_double x reward.


(** The driver's answer as the specification states it: the move tracked
    at the deepest depth that ran to its end within the budget, none when
    no depth did. *)
Definition returns_deepest_finished {Board Move : Type}
    `{RulesEngine Board Move} (ai : ChessAI) (times : nat → Q)
    (w : World Board Move) : Prop :=
  let moves := get_ordered_moves ai (board w) in
  let k := finished ai times (times O) (seq 1 (max_depth ai)) in
  (iterative_deepening ai times w).1.1
  = match k with
    | O => None
    | S _ => best_at ai (board w) moves k
    end.

(** * Properties *)

(** ** The order on scores *)

Lemma ele_refl x : ele x x = true.
Proof. ez. Qed.

Lemma ele_trans x y z : ele x y = true → ele y z = true → ele x z = true.
Proof. ez. Qed.

Lemma ele_antisym x y : ele x y = true → ele y x = true → x = y.
Proof. ez. Qed.

Lemma ele_total x y : ele x y = true ∨ ele y x = true.
Proof. ez; auto. Qed.

Lemma emax_comm x y : emax x y = emax y x.
Proof. ez. Qed.

Lemma emax_assoc x y z : emax x (emax y z) = emax (emax x y) z.
Proof. ez. Qed.

Lemma emin_comm x y : emin x y = emin y x.
Proof. ez. Qed.

Lemma emin_assoc x y z : emin x (emin y z) = emin (emin x y) z.
Proof. ez. Qed.

(** ** Balanced traces *)

Lemma balanced_app {Move} (t1 t2 : list (Event Move)) :
  balanced t1 → balanced t2 → balanced (t1 ++ t2).
Proof.
  induction 1 as [|d a b mx t Ht IH|m u1 u2 Hu1 IH1 Hu2 IH2]; intros H2; simpl.
  - exact H2.
  - constructor. auto.
  - rewrite <- app_assoc. simpl. constructor; auto.
Qed.

Lemma balanced_push_pop {Move} (m : Move) (t : list (Event Move)) :
  balanced t → balanced ([EvPush m] ++ t ++ [EvPop]).
Proof. intros Ht. simpl. apply balanced_push; [exact Ht | constructor]. Qed.

(** ** The search gives the board back *)

Section Run.
Context {Board Move : Type} `{RulesEngine Board Move}.
Hypothesis pop_push : pop_undoes_push.

Lemma world_eta (w : World Board Move) : mkWorld (board w) (calls w ++ []) = w.
Proof. destruct w. simpl. by rewrite app_nil_r. Qed.

Lemma max_loop_run search sv beta :
  (∀ a b, restores (search a b) (sv a b)) →
  ∀ moves value alpha,
    restores (max_loop search beta moves value alpha)
             (λ b, max_value (λ m a b', sv a b' (push b m)) beta moves
                             value alpha).
Proof.
  intros Hs moves. induction moves as [|m rest IH]; intros value alpha w.
  - exists []. split; [constructor|]. simpl. by rewrite world_eta.
  - simpl. unfold mbind, M_bind, board_push, board_pop. simpl.
    destruct (Hs alpha beta (mkWorld (push (board w) m) (calls w ++ [EvPush m])))
      as (t & Ht & ->). simpl. rewrite pop_push.
    destruct (ele beta (emax alpha (emax value (sv alpha beta (push (board w) m))))).
    + exists ([EvPush m] ++ t ++ [EvPop]). split.
      * by apply balanced_push_pop.
      * unfold mret, M_ret. by rewrite <- !app_assoc.
    + destruct (IH (emax value (sv alpha beta (push (board w) m)))
                   (emax alpha (emax value (sv alpha beta (push (board w) m))))
                   (mkWorld (board w) (((calls w ++ [EvPush m]) ++ t) ++ [EvPop])))
        as (t' & Ht' & ->). simpl.
      exists (([EvPush m] ++ t ++ [EvPop]) ++ t'). split.
      * apply balanced_app; [by apply balanced_push_pop | done].
      * by rewrite <- !app_assoc.
Qed.

Lemma min_loop_run search sv alpha :
  (∀ a b, restores (search a b) (sv a b)) →
  ∀ moves value beta,
    restores (min_loop search alpha moves value beta)
             (λ b, min_value (λ m a b', sv a b' (push b m)) alpha moves
                             value beta).
Proof.
  intros Hs moves. induction moves as [|m rest IH]; intros value beta w.
  - exists []. split; [constructor|]. simpl. by rewrite world_eta.
  - simpl. unfold mbind, M_bind, board_push, board_pop. simpl.
    destruct (Hs alpha beta (mkWorld (push (board w) m) (calls w ++ [EvPush m])))
      as (t & Ht & ->). simpl. rewrite pop_push.
    destruct (ele (emin beta (emin value (sv alpha beta (push (board w) m)))) alpha).
    + exists ([EvPush m] ++ t ++ [EvPop]). split.
      * by apply balanced_push_pop.
      * unfold mret, M_ret. by rewrite <- !app_assoc.
    + destruct (IH (emin value (sv alpha beta (push (board w) m)))
                   (emin beta (emin value (sv alpha beta (push (board w) m))))
                   (mkWorld (board w) (((calls w ++ [EvPush m]) ++ t) ++ [EvPop])))
        as (t' & Ht' & ->). simpl.
      exists (([EvPush m] ++ t ++ [EvPop]) ++ t'). split.
      * apply balanced_app; [by apply balanced_push_pop | done].
      * by rewrite <- !app_assoc.
Qed.

Lemma alpha_beta_run ai depth :
  ∀ alpha beta maximizing,
    restores (alpha_beta ai depth alpha beta maximizing)
             (search_value ai depth alpha beta maximizing).
Proof.
  induction depth as [|d IH]; intros alpha beta mx w.
  - exists [EvSearch 0 alpha beta mx]. split; [repeat constructor|]. done.
  - cbn [alpha_beta search_value]. unfold mbind, M_bind, trace, get_board.
    cbn [board calls].
    destruct (is_game_over (board w)).
    { exists [EvSearch (S d) alpha beta mx]. split; [repeat constructor|]. done. }
    destruct (get_ordered_moves ai (board w)) as [|m0 ms] eqn:Hmoves.
    { exists [EvSearch (S d) alpha beta mx]. split; [repeat constructor|]. done. }
    destruct mx.
    + destruct (max_loop_run
                  (λ a b, alpha_beta ai d a b false)
                  (λ a b, search_value ai d a b false) beta
                  (λ a b, IH a b false) (m0 :: ms) NegInf alpha
                  (mkWorld (board w) (calls w ++ [EvSearch (S d) alpha beta true])))
        as (t & Ht & Heq).
      rewrite Heq. cbn [board calls].
      exists (EvSearch (S d) alpha beta true :: t). split; [by constructor|].
      by rewrite <- app_assoc.
    + destruct (min_loop_run
                  (λ a b, alpha_beta ai d a b true)
                  (λ a b, search_value ai d a b true) alpha
                  (λ a b, IH a b true) (m0 :: ms) PosInf beta
                  (mkWorld (board w) (calls w ++ [EvSearch (S d) alpha beta false])))
        as (t & Ht & Heq).
      rewrite Heq. cbn [board calls].
      exists (EvSearch (S d) alpha beta false :: t). split; [by constructor|].
      by rewrite <- app_assoc.
Qed.

End Run.

(** ** The move orderer *)

Section Sorting.
Context {A : Type} (key : A → Q).

Lemma insert_desc_Permutation x l : Permutation (insert_desc key x l) (x :: l).
Proof.
  induction l as [|y l IH]; simpl; [done|].
  destruct (Qltb (key x) (key y)); [|done].
  rewrite IH. apply perm_swap.
Qed.

Lemma sorted_reverse_Permutation l : Permutation (sorted_reverse key l) l.
Proof.
  induction l as [|x l IH]; simpl; [done|].
  rewrite insert_desc_Permutation. by constructor.
Qed.

Lemma sorted_reverse_nil l : sorted_reverse key l = [] ↔ l = [].
Proof.
  split; [|by intros ->].
  intros Hnil. apply Permutation_nil.
  rewrite <- Hnil at 1. apply sorted_reverse_Permutation.
Qed.

End Sorting.

(** ** Alpha-beta against minimax *)

Lemma foldl_emax_ge l : ∀ x, ele x (foldl emax x l) = true.
Proof.
  induction l as [|y l IH]; intros x; simpl; [apply ele_refl|].
  eapply ele_trans; [|apply IH]. ez.
Qed.

Lemma foldl_emin_le l : ∀ x, ele (foldl emin x l) x = true.
Proof.
  induction l as [|y l IH]; intros x; simpl; [apply ele_refl|].
  eapply ele_trans; [apply IH|]. ez.
Qed.

Lemma foldl_emax_Permutation l1 l2 :
  Permutation l1 l2 → ∀ x, foldl emax x l1 = foldl emax x l2.
Proof.
  induction 1 as [|y l1 l2 _ IH|y z l|l1 l2 l3 _ IH1 _ IH2]; intros x; simpl.
  - done.
  - apply IH.
  - f_equal. rewrite <- !emax_assoc. f_equal. apply emax_comm.
  - by rewrite IH1.
Qed.

Lemma foldl_emin_Permutation l1 l2 :
  Permutation l1 l2 → ∀ x, foldl emin x l1 = foldl emin x l2.
Proof.
  induction 1 as [|y l1 l2 _ IH|y z l|l1 l2 l3 _ IH1 _ IH2]; intros x; simpl.
  - done.
  - apply IH.
  - f_equal. rewrite <- !emin_assoc. f_equal. apply emin_comm.
  - by rewrite IH1.
Qed.

Section MaxMin.
Context {Move : Type}.
Variable child : Move → EZ → EZ → EZ.
Variable exact : Move → EZ.
Hypothesis child_within :
  ∀ m a b, elt a b = true → within a b (child m a b) (exact m).

Lemma max_value_within alpha0 beta moves :
  ∀ value alpha best,
    alpha = emax alpha0 value →
    elt alpha beta = true →
    (ele value alpha0 = true → ele best value = true) →
    (elt alpha0 value = true → value = best) →
    within alpha0 beta (max_value child beta moves value alpha)
           (foldl emax best (map exact moves)).
Proof.
  induction moves as [|m rest IH]; intros value alpha best -> Hlt Hlow Hin.
  - simpl. repeat split.
    + done.
    + intros Hb. exfalso. clear -Hlt Hb. ez.
    + intros Ha _. by apply Hin.
  - simpl.
    pose proof (child_within m (emax alpha0 value) beta Hlt) as (C1 & C2 & C3).
    set (r := child m (emax alpha0 value) beta) in *. clearbody r.
    destruct (ele beta (emax (emax alpha0 value) (emax value r))) eqn:Hcut.
    + assert (Hr : ele beta r = true) by (clear -Hlt Hcut; ez).
      assert (Hv : emax value r = r) by (clear -Hlt Hr; ez).
      rewrite Hv. repeat split.
      * intros Hb. exfalso. clear -Hlt Hr Hb. ez.
      * intros _. eapply ele_trans; [apply (C2 Hr)|].
        eapply ele_trans; [|apply foldl_emax_ge].
        generalize (exact m). clear. ez.
      * intros _ Hb. exfalso. clear -Hr Hb. ez.
    + apply IH.
      * clear. ez.
      * clear -Hcut. unfold elt. by rewrite Hcut.
      * intros Hle.
        assert (Hle1 : ele value alpha0 = true) by (clear -Hle; ez).
        assert (Hle2 : ele r (emax alpha0 value) = true) by (clear -Hle; ez).
        specialize (Hlow Hle1). specialize (C1 Hle2).
        clear -Hlow C1. generalize dependent (exact m). ez.
      * intros Hgt.
        assert (Hb : elt (emax value r) beta = true) by (clear -Hcut; ez).
        clear IH Hcut child_within.
        destruct (ele value alpha0) eqn:Hva.
        -- specialize (Hlow eq_refl).
           assert (Hra : elt (emax alpha0 value) r = true) by (clear -Hgt Hva; ez).
           assert (Hrb : elt r beta = true) by (clear -Hb Hgt Hva; ez).
           specialize (C3 Hra Hrb). rewrite <- C3.
           clear -Hlow Hva Hra. ez.
        -- assert (Hva' : elt alpha0 value = true) by (clear -Hva; ez).
           specialize (Hin Hva'). subst best.
           destruct (ele r (emax alpha0 value)) eqn:Hrl.
           ++ specialize (C1 eq_refl). clear -C1 Hrl Hva. generalize dependent (exact m). ez.
           ++ assert (Hra : elt (emax alpha0 value) r = true) by (clear -Hrl; ez).
              assert (Hrb : elt r beta = true) by (clear -Hb Hrl Hva; ez).
              specialize (C3 Hra Hrb). rewrite <- C3. done.
Qed.

Lemma min_value_within alpha beta0 moves :
  ∀ value beta best,
    beta = emin beta0 value →
    elt alpha beta = true →
    (ele beta0 value = true → ele value best = true) →
    (elt value beta0 = true → value = best) →
    within alpha beta0 (min_value child alpha moves value beta)
           (foldl emin best (map exact moves)).
Proof.
  induction moves as [|m rest IH]; intros value beta best -> Hlt Hhigh Hin.
  - simpl. repeat split.
    + intros Ha. exfalso. clear -Hlt Ha. ez.
    + done.
    + intros _ Hb. by apply Hin.
  - simpl.
    pose proof (child_within m alpha (emin beta0 value) Hlt) as (C1 & C2 & C3).
    set (r := child m alpha (emin beta0 value)) in *. clearbody r.
    destruct (ele (emin (emin beta0 value) (emin value r)) alpha) eqn:Hcut.
    + assert (Hr : ele r alpha = true) by (clear -Hlt Hcut; ez).
      assert (Hv : emin value r = r) by (clear -Hlt Hr; ez).
      rewrite Hv. repeat split.
      * intros _. eapply ele_trans; [|apply (C1 Hr)].
        eapply ele_trans; [apply foldl_emin_le|].
        generalize (exact m). clear. ez.
      * intros Hb. exfalso. clear -Hlt Hr Hb. ez.
      * intros Ha _. exfalso. clear -Hr Ha. ez.
    + apply IH.
      * clear. ez.
      * clear -Hcut. unfold elt. by rewrite Hcut.
      * intros Hge.
        assert (Hge1 : ele beta0 value = true) by (clear -Hge; ez).
        assert (Hge2 : ele (emin beta0 value) r = true) by (clear -Hge; ez).
        specialize (Hhigh Hge1). specialize (C2 Hge2).
        clear -Hhigh C2. generalize dependent (exact m). ez.
      * intros Hless.
        assert (Ha : elt alpha (emin value r) = true) by (clear -Hcut; ez).
        clear IH Hcut child_within.
        destruct (ele beta0 value) eqn:Hvb.
        -- specialize (Hhigh eq_refl).
           assert (Hrb : elt r (emin beta0 value) = true) by (clear -Hless Hvb; ez).
           assert (Hra : elt alpha r = true) by (clear -Ha Hless Hvb; ez).
           specialize (C3 Hra Hrb). rewrite <- C3.
           clear -Hhigh Hvb Hrb. ez.
        -- assert (Hvb' : elt value beta0 = true) by (clear -Hvb; ez).
           specialize (Hin Hvb'). subst best.
           destruct (ele (emin beta0 value) r) eqn:Hrl.
           ++ specialize (C2 eq_refl). clear -C2 Hrl Hvb.
              generalize dependent (exact m). ez.
           ++ assert (Hrb : elt r (emin beta0 value) = true) by (clear -Hrl; ez).
              assert (Hra : elt alpha r = true) by (clear -Ha Hrl Hvb; ez).
              specialize (C3 Hra Hrb). rewrite <- C3. done.
Qed.

End MaxMin.

Lemma within_refl alpha beta v : within alpha beta v v.
Proof. repeat split; intros; apply ele_refl. Qed.

Lemma within_full r v : within NegInf PosInf r v → r = v.
Proof.
  intros (H1 & H2 & H3). destruct r as [|z|].
  - specialize (H1 eq_refl). destruct v; done.
  - by apply H3.
  - specialize (H2 eq_refl). destruct v; done.
Qed.

Section Search.
Context {Board Move : Type} `{RulesEngine Board Move}.
Variable ai : ChessAI.

Lemma get_ordered_moves_Permutation b :
  Permutation (get_ordered_moves ai b) (legal_moves b).
Proof. apply sorted_reverse_Permutation. Qed.

Lemma get_ordered_moves_nil b :
  get_ordered_moves ai b = [] ↔ legal_moves b = [].
Proof. apply sorted_reverse_nil. Qed.

Lemma search_value_within depth :
  ∀ alpha beta maximizing b,
    elt alpha beta = true →
    within alpha beta (search_value ai depth alpha beta maximizing b)
           (minimax depth maximizing b).
Proof.
  induction depth as [|d IH]; intros alpha beta mx b Hlt.
  - apply within_refl.
  - cbn [search_value minimax].
    destruct (is_game_over b); [apply within_refl|].
    pose proof (get_ordered_moves_Permutation b) as Hperm.
    destruct (get_ordered_moves ai b) as [|m0 ms] eqn:Hord.
    { apply Permutation_nil in Hperm. rewrite Hperm. apply within_refl. }
    destruct (legal_moves b) as [|l0 ls] eqn:Hlegal.
    { symmetry in Hperm. by apply Permutation_nil in Hperm. }
    destruct mx; cbn [negb].
    + rewrite <- (foldl_emax_Permutation _ _
                   (Permutation_map (λ m, minimax d false (push b m)) Hperm)).
      apply (max_value_within
               (λ m a b', search_value ai d a b' false (push b m))
               (λ m, minimax d false (push b m))).
      * intros m a b' Hab. by apply IH.
      * clear. ez.
      * done.
      * done.
      * intros Hx. exfalso. clear -Hx. ez.
    + rewrite <- (foldl_emin_Permutation _ _
                   (Permutation_map (λ m, minimax d true (push b m)) Hperm)).
      apply (min_value_within
               (λ m a b', search_value ai d a b' true (push b m))
               (λ m, minimax d true (push b m))).
      * intros m a b' Hab. by apply IH.
      * clear. ez.
      * done.
      * done.
      * intros Hx. exfalso. clear -Hx. ez.
Qed.

(** The search never answers with an infinity. *)
Lemma emax_Fin value z : value ≠ PosInf → ∃ z', emax value (Fin z) = Fin z'.
Proof. intros Hv. destruct value; [ | |done]; unfold emax; simpl; [|case_match]; eauto. Qed.

Lemma emin_Fin value z : value ≠ NegInf → ∃ z', emin value (Fin z) = Fin z'.
Proof. intros Hv. destruct value; [done| |]; unfold emin; simpl; [case_match|]; eauto. Qed.

Lemma max_value_Fin (child : Move → EZ → EZ → EZ) beta :
  (∀ m a b, ∃ z, child m a b = Fin z) →
  ∀ moves value alpha,
    value ≠ PosInf →
    (moves ≠ [] ∨ ∃ z, value = Fin z) →
    ∃ z, max_value child beta moves value alpha = Fin z.
Proof.
  intros Hc moves. induction moves as [|m rest IH]; intros value alpha Hv Hne.
  - simpl. destruct Hne as [|Hz]; done.
  - simpl. destruct (Hc m alpha beta) as [z ->].
    destruct (emax_Fin value z Hv) as [z' ->].
    case_match; [eauto|]. apply IH; [done|]. right. eauto.
Qed.

Lemma min_value_Fin (child : Move → EZ → EZ → EZ) alpha :
  (∀ m a b, ∃ z, child m a b = Fin z) →
  ∀ moves value beta,
    value ≠ NegInf →
    (moves ≠ [] ∨ ∃ z, value = Fin z) →
    ∃ z, min_value child alpha moves value beta = Fin z.
Proof.
  intros Hc moves. induction moves as [|m rest IH]; intros value beta Hv Hne.
  - simpl. destruct Hne as [|Hz]; done.
  - simpl. destruct (Hc m alpha beta) as [z ->].
    destruct (emin_Fin value z Hv) as [z' ->].
    case_match; [eauto|]. apply IH; [done|]. right. eauto.
Qed.

Lemma search_value_Fin depth :
  ∀ alpha beta maximizing b,
    ∃ z, search_value ai depth alpha beta maximizing b = Fin z.
Proof.
  induction depth as [|d IH]; intros alpha beta mx b; cbn [search_value].
  - eauto.
  - destruct (is_game_over b); [eauto|].
    destruct (get_ordered_moves ai b) as [|m0 ms]; [eauto|].
    destruct mx.
    + apply max_value_Fin; [intros; apply IH|done|by left].
    + apply min_value_Fin; [intros; apply IH|done|by left].
Qed.

End Search.

(** ** The driver and the coordinator give the board back *)

Section RunDriver.
Context {Board Move : Type} `{RulesEngine Board Move}.
Hypothesis pop_push : pop_undoes_push.
Variable ai : ChessAI.

Lemma root_loop_run depth beta moves :
  ∀ alpha current_best current_value search_tree,
    restores (root_loop ai depth moves alpha beta current_best current_value
                        search_tree)
             (λ b, root_result ai depth b moves alpha beta current_best
                               current_value search_tree).
Proof.
  induction moves as [|m rest IH]; intros alpha cb cv tree w.
  - exists []. split; [constructor|]. simpl. by rewrite world_eta.
  - simpl. unfold mbind, M_bind, board_push, board_pop. simpl.
    destruct (alpha_beta_run pop_push ai (depth - 1) alpha beta false
                (mkWorld (push (board w) m) (calls w ++ [EvPush m])))
      as (t & Ht & ->). simpl. rewrite pop_push.
    set (value := search_value ai (depth - 1) alpha beta false (push (board w) m)).
    destruct (elt cv value).
    + destruct (IH (emax alpha value) (Some m) value
                   (set_score tree depth (uci m) value)
                   (mkWorld (board w) (((calls w ++ [EvPush m]) ++ t) ++ [EvPop])))
        as (t' & Ht' & ->). simpl.
      exists (([EvPush m] ++ t ++ [EvPop]) ++ t'). split.
      * apply balanced_app; [by apply balanced_push_pop | done].
      * by rewrite <- !app_assoc.
    + destruct (IH (emax alpha value) cb cv
                   (set_score tree depth (uci m) value)
                   (mkWorld (board w) (((calls w ++ [EvPush m]) ++ t) ++ [EvPop])))
        as (t' & Ht' & ->). simpl.
      exists (([EvPush m] ++ t ++ [EvPop]) ++ t'). split.
      * apply balanced_app; [by apply balanced_push_pop | done].
      * by rewrite <- !app_assoc.
Qed.

Lemma depth_loop_run times start_time legal depths :
  ∀ best_move best_value search_tree,
    restores (depth_loop ai times start_time legal depths best_move best_value
                         search_tree)
             (λ b, depth_result ai times start_time b legal depths best_move
                                best_value search_tree).
Proof.
  induction depths as [|d rest IH]; intros bm bv tree w.
  - exists []. split; [constructor|]. simpl. by rewrite world_eta.
  - simpl. destruct (Qltb (time_limit ai) (times d - start_time)).
    { exists []. split; [constructor|]. unfold mret, M_ret. by rewrite world_eta. }
    unfold mbind, M_bind.
    destruct (root_loop_run d PosInf legal NegInf bm NegInf (<[d:=∅]> tree) w)
      as (t & Ht & ->).
    destruct (root_result ai d (board w) legal NegInf PosInf bm NegInf
                          (<[d:=∅]> tree)) as [[cb cv] tree'].
    destruct (truthy cb).
    + destruct (IH cb cv tree' (mkWorld (board w) (calls w ++ t)))
        as (t' & Ht' & ->). simpl.
      exists (t ++ t'). split; [by apply balanced_app|]. by rewrite <- app_assoc.
    + destruct (IH bm bv tree' (mkWorld (board w) (calls w ++ t)))
        as (t' & Ht' & ->). simpl.
      exists (t ++ t'). split; [by apply balanced_app|]. by rewrite <- app_assoc.
Qed.

Lemma iterative_deepening_run times :
  restores (iterative_deepening ai times) (driver_result ai times).
Proof.
  intros w. unfold iterative_deepening, driver_result, mbind, M_bind, get_board.
  destruct (get_ordered_moves ai (board w)) as [|m0 ms].
  { exists []. split; [constructor|]. unfold mret, M_ret. by rewrite world_eta. }
  destruct (depth_loop_run times (times O) (m0 :: ms) (seq 1 (max_depth ai))
                           None NegInf ∅ w) as (t & Ht & ->).
  destruct (depth_result ai times (times O) (board w) (m0 :: ms)
                         (seq 1 (max_depth ai)) None NegInf ∅) as [bm tree].
  exists t. split; done.
Qed.

Lemma compute_best_move_run times :
  restores (compute_best_move ai times) (decision_result ai times).
Proof.
  intros w. unfold compute_best_move, decision_result, mbind, M_bind, get_board.
  destruct (iterative_deepening_run times w) as (t & Ht & ->).
  destruct (driver_result ai times (board w)) as [[mv|] tree].
  - destruct (move_bool mv).
    + unfold board_push, board_pop, mret, M_ret. simpl. rewrite pop_push.
      exists (t ++ [EvPush mv] ++ [] ++ [EvPop]). split.
      * apply balanced_app; [done|]. apply balanced_push_pop. constructor.
      * simpl. by rewrite <- !app_assoc.
    + exists t. split; done.
  - exists t. split; done.
Qed.

End RunDriver.

(** ** The tree engine honours make/unmake *)

Lemma tree_pop_push : @pop_undoes_push TreeGame.TreeBoard nat TreeGame.tree_engine.
Proof. intros [c s] m. reflexivity. Qed.

(** ** Evaluator *)

(** C4. On a checkmate [evaluate_board] answers -10000 when White is to
    move and +10000 when Black is to move (magnitude 10000, sign against
    the side to move); on a stalemate or on insufficient material that is
    not a checkmate it answers 0. *)
Theorem evaluate_board_terminal {Board Move : Type} `{RulesEngine Board Move}
    (b : Board) :
  (is_checkmate b = true →
     (turn b = WHITE → evaluate_board b = -10000) ∧
     (turn b = BLACK → evaluate_board b = 10000) ∧
     Z.abs (evaluate_board b) = 10000) ∧
  (is_checkmate b = false →
     is_stalemate b = true ∨ is_insufficient_material b = true →
     evaluate_board b = 0).
Proof.
  unfold evaluate_board. split.
  - intros ->. destruct (turn b) eqn:Hturn; simpl; repeat split; done.
  - intros -> [-> | ->]; simpl; [done|]. by rewrite orb_true_r.
Qed.

Lemma evaluate_board_terminal_witness :
  let b := TreeGame.start (TreeGame.mated "mate" BLACK) in
  is_checkmate b = true ∧ turn b = BLACK ∧ evaluate_board b = 10000.
Proof.
  intros b. split; [reflexivity|]. split; [reflexivity|].
  apply (evaluate_board_terminal b); reflexivity.
Defined.

(** ** Alpha-beta *)

(** C3. Called with the window (-inf, +inf), [alpha_beta] returns the value
    of the unpruned minimax of the same depth from the same position, for
    every depth, every position of every engine whose [pop] undoes [push],
    and either player to move. *)
Theorem alpha_beta_full_window_is_minimax {Board Move : Type}
    `{RulesEngine Board Move} (ai : ChessAI) (depth : nat)
    (maximizing : bool) (w : World Board Move) :
  pop_undoes_push →
  (alpha_beta ai depth NegInf PosInf maximizing w).1
  = minimax depth maximizing (board w).
Proof.
  intros Hpp.
  destruct (alpha_beta_run Hpp ai depth NegInf PosInf maximizing w)
    as (t & _ & ->).
  cbn [fst]. apply within_full. by apply search_value_within.
Qed.

Lemma alpha_beta_full_window_is_minimax_witness :
  @pop_undoes_push TreeGame.TreeBoard nat _ ∧
  (alpha_beta (make_ai (TreeGame.empty_table "q1")) 2 NegInf PosInf true
              (mkWorld (TreeGame.start TreeGame.two_replies) [])).1
  = minimax 2 true (TreeGame.start TreeGame.two_replies).
Proof.
  split; [exact tree_pop_push|].
  apply alpha_beta_full_window_is_minimax. exact tree_pop_push.
Defined.

(** C7. After [alpha_beta] and after [compute_best_move] the board is the
    one the call started from, and the pushes and pops made during the
    call are balanced: each pop reverts the latest move still applied, and
    none stays applied. *)
Theorem search_and_decision_restore_board {Board Move : Type}
    `{RulesEngine Board Move} (ai : ChessAI) (times : nat → Q) (depth : nat)
    (alpha beta : EZ) (maximizing : bool) (w : World Board Move) :
  pop_undoes_push →
  (∃ t, balanced t ∧
        (alpha_beta ai depth alpha beta maximizing w).2
        = mkWorld (board w) (calls w ++ t)) ∧
  (∃ t, balanced t ∧
        (compute_best_move ai times w).2 = mkWorld (board w) (calls w ++ t)).
Proof.
  intros Hpp. split.
  - destruct (alpha_beta_run Hpp ai depth alpha beta maximizing w)
      as (t & Ht & ->). by exists t.
  - destruct (compute_best_move_run Hpp ai times w) as (t & Ht & ->).
    by exists t.
Qed.

Lemma search_and_decision_restore_board_witness :
  let ai := make_ai (TreeGame.empty_table "q1") in
  let w := mkWorld (TreeGame.start TreeGame.two_replies) [] in
  @pop_undoes_push TreeGame.TreeBoard nat _ ∧
  (∃ t, balanced t ∧
        (alpha_beta ai 2 NegInf PosInf true w).2
        = mkWorld (board w) (calls w ++ t)) ∧
  (∃ t, balanced t ∧
        (compute_best_move ai TreeGame.frozen_clock w).2
        = mkWorld (board w) (calls w ++ t)).
Proof.
  intros ai w. split; [exact tree_pop_push|].
  apply search_and_decision_restore_board. exact tree_pop_push.
Defined.

(** ** Every search leaves its mark in the trace *)

Section Trace.
Context {Board Move : Type} `{RulesEngine Board Move}.

Lemma max_loop_extends (search : EZ → EZ → M EZ) beta :
  (∀ a b w, ∃ t, calls (search a b w).2 = calls w ++ t) →
  ∀ moves value alpha w,
    ∃ t, calls (max_loop search beta moves value alpha w).2 = calls w ++ t.
Proof.
  intros Hs moves. induction moves as [|m rest IH]; intros value alpha w.
  - exists []. simpl. by rewrite app_nil_r.
  - simpl. unfold mbind, M_bind, board_push, board_pop.
    destruct (Hs alpha beta
                (mkWorld (push (board w) m) (calls w ++ [EvPush m])))
      as [t Ht].
    destruct (search alpha beta _) as [r w1]. simpl in *.
    destruct (ele beta (emax alpha (emax value r))).
    + eexists. simpl. rewrite Ht. by rewrite <- !app_assoc.
    + destruct (IH (emax value r) (emax alpha (emax value r))
                   (mkWorld (pop (board w1)) (calls w1 ++ [EvPop])))
        as [t' ->].
      eexists. simpl. rewrite Ht. by rewrite <- !app_assoc.
Qed.

Lemma min_loop_extends (search : EZ → EZ → M EZ) alpha :
  (∀ a b w, ∃ t, calls (search a b w).2 = calls w ++ t) →
  ∀ moves value beta w,
    ∃ t, calls (min_loop search alpha moves value beta w).2 = calls w ++ t.
Proof.
  intros Hs moves. induction moves as [|m rest IH]; intros value beta w.
  - exists []. simpl. by rewrite app_nil_r.
  - simpl. unfold mbind, M_bind, board_push, board_pop.
    destruct (Hs alpha beta
                (mkWorld (push (board w) m) (calls w ++ [EvPush m])))
      as [t Ht].
    destruct (search alpha beta _) as [r w1]. simpl in *.
    destruct (ele (emin beta (emin value r)) alpha).
    + eexists. simpl. rewrite Ht. by rewrite <- !app_assoc.
    + destruct (IH (emin value r) (emin beta (emin value r))
                   (mkWorld (pop (board w1)) (calls w1 ++ [EvPop])))
        as [t' ->].
      eexists. simpl. rewrite Ht. by rewrite <- !app_assoc.
Qed.

Lemma alpha_beta_leaves_event ai depth :
  ∀ alpha beta maximizing (w : World Board Move),
    ∃ t, calls (alpha_beta ai depth alpha beta maximizing w).2
         = calls w ++ EvSearch depth alpha beta maximizing :: t.
Proof.
  induction depth as [|d IH]; intros alpha beta mx w.
  - by exists [].
  - cbn [alpha_beta]. unfold mbind, M_bind, trace, get_board. cbn [board calls].
    destruct (is_game_over (board w)); [by exists []|].
    destruct (get_ordered_moves ai (board w)) as [|m0 ms]; [by exists []|].
    destruct mx.
    + destruct (max_loop_extends (λ a b, alpha_beta ai d a b false) beta)
        with (moves := m0 :: ms) (value := NegInf) (alpha := alpha)
             (w := mkWorld (board w) (calls w ++ [EvSearch (S d) alpha beta true]))
        as [t ->].
      { intros a b w'. destruct (IH a b false w') as [t ->]. eauto. }
      exists t. cbn [calls]. by rewrite <- app_assoc.
    + destruct (min_loop_extends (λ a b, alpha_beta ai d a b true) alpha)
        with (moves := m0 :: ms) (value := PosInf) (beta := beta)
             (w := mkWorld (board w) (calls w ++ [EvSearch (S d) alpha beta false]))
        as [t ->].
      { intros a b w'. destruct (IH a b true w') as [t ->]. eauto. }
      exists t. cbn [calls]. by rewrite <- app_assoc.
Qed.

End Trace.

(** ** No legal move *)

(** C9. With no legal move the driver returns (None, None) and the
    coordinator returns no move and the Q-table it was given; neither
    touches the board nor enters [alpha_beta]: the world, ghost trace
    included, is returned as it was, whereas any call of [alpha_beta]
    would have added its event to the trace. *)
Theorem no_legal_move_no_search {Board Move : Type} `{RulesEngine Board Move}
    (ai : ChessAI) (times : nat → Q) (w : World Board Move) :
  legal_moves (board w) = [] →
  iterative_deepening ai times w = ((None, None), w) ∧
  compute_best_move ai times w = ((None, None, qtable ai), w) ∧
  (∀ ai' depth alpha beta maximizing (w' : World Board Move),
     (alpha_beta ai' depth alpha beta maximizing w').2 ≠ w').
Proof.
  intros Hnone.
  assert (Hord : get_ordered_moves ai (board w) = [])
    by by apply get_ordered_moves_nil.
  assert (Hdrive : iterative_deepening ai times w = ((None, None), w)).
  { unfold iterative_deepening, mbind, M_bind, get_board. by rewrite Hord. }
  split; [done|]. split.
  - unfold compute_best_move, mbind, M_bind, get_board. by rewrite Hdrive.
  - intros ai' depth alpha beta mx w' Heq.
    destruct (alpha_beta_leaves_event ai' depth alpha beta mx w') as [t Ht].
    rewrite Heq in Ht. apply (f_equal length) in Ht.
    rewrite length_app in Ht. simpl in Ht. lia.
Qed.

Lemma no_legal_move_no_search_witness :
  let ai := make_ai (TreeGame.empty_table "q1") in
  let w := mkWorld (TreeGame.start (TreeGame.mated "mate" BLACK)) [] in
  legal_moves (board w) = [] ∧
  iterative_deepening ai TreeGame.frozen_clock w = ((None, None), w) ∧
  compute_best_move ai TreeGame.frozen_clock w = ((None, None, qtable ai), w).
Proof.
  intros ai w.
  assert (Hnone : legal_moves (board w) = []) by reflexivity.
  split; [exact Hnone|].
  destruct (no_legal_move_no_search ai TreeGame.frozen_clock w Hnone)
    as (Hdrive & Hdecide & _).
  split; [exact Hdrive|exact Hdecide].
Defined.

(** ** The Q-table *)

Lemma entry_update_eq t f m r a :
  entry (update t f m r a) f m
  = Some (get_q t f m + a * (r - get_q t f m))%Q.
Proof.
  unfold entry, update, get_q. simpl.
  destruct (q t !! f) as [row|] eqn:Hrow; simpl.
  - rewrite lookup_insert_eq. simpl. rewrite Hrow. simpl.
    by rewrite lookup_insert_eq.
  - rewrite !lookup_insert_eq. simpl. by rewrite lookup_insert_eq.
Qed.

Lemma entry_update_ne t f m r a f' m' :
  (f', m') ≠ (f, m) → entry (update t f m r a) f' m' = entry t f' m'.
Proof.
  intros Hne. unfold entry, update. simpl.
  destruct (decide (f = f')) as [<-|Hf].
  - assert (Hm : m ≠ m') by congruence.
    destruct (q t !! f) as [row|] eqn:Hrow; simpl.
    + rewrite lookup_insert_eq. simpl. rewrite Hrow. simpl.
      by rewrite lookup_insert_ne.
    + rewrite !lookup_insert_eq. simpl. by rewrite lookup_insert_ne.
  - destruct (q t !! f) as [row|] eqn:Hrow; simpl.
    + by rewrite lookup_insert_ne.
    + by rewrite !lookup_insert_ne.
Qed.

Lemma get_q_entry t f m : get_q t f m = default 0%Q (entry t f m).
Proof. unfold get_q, entry. by destruct (q t !! f). Qed.

Lemma get_q_update_eq t f m r a :
  get_q (update t f m r a) f m = (get_q t f m + a * (r - get_q t f m))%Q.
Proof. by rewrite get_q_entry, entry_update_eq. Qed.

Lemma get_q_repeated_update n t f m r a :
  get_q (repeated_update n t f m r a) f m
  = Nat.iter n (update_step a r) (get_q t f m).
Proof.
  induction n as [|n IH]; [done|].
  unfold repeated_update in *. simpl. by rewrite get_q_update_eq, IH.
Qed.

(** The updates in binary64 *)

Lemma entry_double_update_eq (qd : DoubleTable) f m r a :
  entry_double (update_double qd f m r a) f m
  = Some (update_step_double a r (get_q_double qd f m)).
Proof.
  unfold entry_double, update_double, get_q_double, update_step_double.
  destruct (qd !! f) as [row|] eqn:Hrow; simpl.
  - rewrite lookup_insert_eq. simpl. rewrite Hrow. simpl.
    by rewrite lookup_insert_eq.
  - rewrite !lookup_insert_eq. simpl. by rewrite lookup_insert_eq.
Qed.

Lemma get_q_double_entry (qd : DoubleTable) f m :
  get_q_double qd f m = default 0%float (entry_double qd f m).
Proof. unfold get_q_double, entry_double. by destruct (qd !! f). Qed.

Lemma get_q_double_repeated n (qd : DoubleTable) f m r a :
  get_q_double (repeated_update_double n qd f m r a) f m
  = Nat.iter n (update_step_double a r) (get_q_double qd f m).
Proof.
  induction n as [|n IH]; [done|].
  unfold repeated_update_double in *. simpl.
  by rewrite get_q_double_entry, entry_double_update_eq, IH.
Qed.

Lemma get_q_double_unset n (qd : DoubleTable) f m r a :
  entry_double qd f m = None →
  get_q_double (repeated_update_double n qd f m r a) f m
  = repeated_step_double a r n.
Proof.
  intros Hnone. rewrite get_q_double_repeated.
  by rewrite (get_q_double_entry qd), Hnone.
Qed.

Lemma repeated_step_double_stalls (n : nat) :
  (333 ≤ n)%nat →
  repeated_step_double LEARNING_RATE_double 1%float n = stalled_value.
Proof.
  intros Hn. replace n with (n - 333 + 333)%nat by lia.
  generalize (n - 333)%nat as k. clear n Hn.
  induction k as [|k IH].
  - vm_compute. reflexivity.
  - unfold repeated_step_double in *. cbn [Nat.add]. rewrite Nat.iter_succ, IH.
    vm_compute. reflexivity.
Qed.

Lemma repeated_step_double_first_steps :
  forallb (λ n, PrimFloat.leb (repeated_step_double LEARNING_RATE_double 1%float n)
                              (repeated_step_double LEARNING_RATE_double 1%float (S n))
                && PrimFloat.leb (repeated_step_double LEARNING_RATE_double 1%float (S n))
                                 1%float)
          (List.seq 0 333) = true.
Proof. vm_compute. reflexivity. Qed.

Lemma repeated_step_double_monotone (n : nat) :
  PrimFloat.leb (repeated_step_double LEARNING_RATE_double 1%float n)
                (repeated_step_double LEARNING_RATE_double 1%float (S n)) = true ∧
  PrimFloat.leb (repeated_step_double LEARNING_RATE_double 1%float (S n)) 1%float
  = true.
Proof.
  destruct (le_lt_dec 333 n) as [Hge|Hlt].
  - rewrite !repeated_step_double_stalls by lia. split; vm_compute; reflexivity.
  - pose proof repeated_step_double_first_steps as Hall.
    rewrite forallb_forall in Hall. specialize (Hall n).
    rewrite andb_true_iff in Hall. apply Hall. apply in_seq. lia.
Qed.




(** C10. [update] changes at most the entry of its own key: every other
    (position, move) entry keeps its value, no entry is removed and no
    row is removed. *)
Theorem update_frame (t : QTable) (f m : string) (r a : Q) :
  (∀ f' m', (f', m') ≠ (f, m) →
            entry (update t f m r a) f' m' = entry t f' m') ∧
  (∀ f' m', is_Some (entry t f' m') →
            is_Some (entry (update t f m r a) f' m')) ∧
  (∀ f', is_Some (q t !! f') → is_Some (q (update t f m r a) !! f')).
Proof.
  split; [intros; by apply entry_update_ne|]. split.
  - intros f' m' Hsome.
    destruct (decide ((f', m') = (f, m))) as [[= -> ->]|Hne].
    + rewrite entry_update_eq. eauto.
    + by rewrite entry_update_ne.
  - intros f' Hsome. unfold update. simpl.
    destruct (decide (f = f')) as [<-|Hne].
    + rewrite lookup_insert_eq. eauto.
    + destruct (q t !! f); by rewrite ?lookup_insert_ne.
Qed.

Lemma update_frame_witness :
  let t := update (TreeGame.empty_table "q1") "root" "a" 1 LEARNING_RATE in
  ("root", "a") ≠ ("root", "b") ∧
  entry (update t "root" "b" (-1) LEARNING_RATE) "root" "a" = entry t "root" "a" ∧
  is_Some (entry (update t "root" "b" (-1) LEARNING_RATE) "root" "a").
Proof.
  intros t.
  destruct (update_frame t "root" "b" (-1) LEARNING_RATE) as (Hother & Hkeep & _).
  split; [done|]. split.
  - apply Hother. done.
  - apply Hkeep. vm_compute. eauto.
Defined.

(** ** The move orderer: sorted and stable *)

Section SortedStable.
Context {A : Type} (key : A → Q).

Local Abbreviation desc := (desc key).

Lemma Qltb_true x y : Qltb x y = true ↔ (x < y)%Q.
Proof.
  unfold Qltb. rewrite negb_true_iff, <- not_true_iff_false, Qle_bool_iff.
  split; [apply Qnot_le_lt | apply Qlt_not_le].
Qed.

Lemma Qltb_false x y : Qltb x y = false ↔ (y <= x)%Q.
Proof. unfold Qltb. by rewrite negb_false_iff, Qle_bool_iff. Qed.

Lemma insert_desc_Sorted x l :
  StronglySorted desc l → StronglySorted desc (insert_desc key x l).
Proof.
  induction 1 as [|y l Hl IH Hy]; simpl; [by repeat constructor|].
  destruct (Qltb (key x) (key y)) eqn:Hxy.
  - apply Qltb_true in Hxy. constructor; [done|].
    rewrite insert_desc_Permutation. constructor; [|done].
    unfold desc. by apply Qlt_le_weak.
  - apply Qltb_false in Hxy. constructor; [by constructor|].
    constructor; [done|].
    eapply Forall_impl; [exact Hy|]. unfold desc. intros z Hz. simpl in Hz.
    by eapply Qle_trans.
Qed.

Lemma sorted_reverse_Sorted l : StronglySorted desc (sorted_reverse key l).
Proof.
  induction l as [|x l IH]; simpl; [constructor|]. by apply insert_desc_Sorted.
Qed.

Lemma StronglySorted_lookup_desc (l : list A) :
  StronglySorted desc l →
  ∀ (i j : nat) (x y : A),
    (i < j)%nat → l !! i = Some x → l !! j = Some y → (key y <= key x)%Q.
Proof.
  induction 1 as [|z l Hl IH Hz]; intros i j x y Hij Hi Hj; [done|].
  destruct j as [|j]; [lia|]. simpl in Hj.
  destruct i as [|i]; simpl in Hi.
  - injection Hi as ->. rewrite Forall_forall in Hz.
    apply Hz. by eapply list_elem_of_lookup_2.
  - apply (IH i j); [lia|done..].
Qed.

Lemma filter_insert_desc (k : Q) x l :
  List.filter (λ m, Qeq_bool (key m) k) (insert_desc key x l)
  = List.filter (λ m, Qeq_bool (key m) k) (x :: l).
Proof.
  induction l as [|y l IH]; [done|]. cbn [insert_desc].
  destruct (Qltb (key x) (key y)) eqn:Hxy; [|done].
  apply Qltb_true in Hxy. cbn [List.filter] in *. rewrite IH.
  destruct (Qeq_bool (key x) k) eqn:Hx, (Qeq_bool (key y) k) eqn:Hy; try done.
  apply Qeq_bool_iff in Hx, Hy. rewrite Hx, Hy in Hxy.
  by apply Qlt_irrefl in Hxy.
Qed.

Lemma filter_sorted_reverse (k : Q) l :
  List.filter (λ m, Qeq_bool (key m) k) (sorted_reverse key l)
  = List.filter (λ m, Qeq_bool (key m) k) l.
Proof.
  induction l as [|x l IH]; [done|]. cbn [sorted_reverse foldr].
  rewrite filter_insert_desc. cbn [List.filter].
  fold (sorted_reverse key l). by rewrite IH.
Qed.

End SortedStable.

(** C5. [get_ordered_moves] returns the legal moves, each as often as the
    engine lists it, in descending order of the Q-value stored for
    (position, move), which is 0 for a pair without entry; moves of equal
    Q-value come in the order of the engine's enumeration. *)
Theorem get_ordered_moves_sorted_stable {Board Move : Type}
    `{RulesEngine Board Move} (ai : ChessAI) (b : Board) :
  let pref (m : Move) := get_q (qtable ai) (fen b) (uci m) in
  Permutation (get_ordered_moves ai b) (legal_moves b) ∧
  (∀ m, entry (qtable ai) (fen b) (uci m) = None → pref m = 0%Q) ∧
  (∀ (i j : nat) (mi mj : Move),
     (i < j)%nat →
     get_ordered_moves ai b !! i = Some mi →
     get_ordered_moves ai b !! j = Some mj →
     (pref mj <= pref mi)%Q) ∧
  (∀ k : Q,
     List.filter (λ m, Qeq_bool (pref m) k) (get_ordered_moves ai b)
     = List.filter (λ m, Qeq_bool (pref m) k) (legal_moves b)).
Proof.
  intros pref. split; [apply get_ordered_moves_Permutation|]. split.
  { intros m Hnone. unfold pref. by rewrite get_q_entry, Hnone. }
  split.
  - apply (StronglySorted_lookup_desc pref). apply sorted_reverse_Sorted.
  - intros k. apply (filter_sorted_reverse pref).
Qed.

Lemma get_ordered_moves_sorted_stable_witness :
  let t := update (TreeGame.empty_table "q1") "root" "b" 1 LEARNING_RATE in
  let ai := make_ai t in
  let b := TreeGame.start TreeGame.two_replies in
  legal_moves b = [0; 1]%nat ∧
  get_ordered_moves ai b = [1; 0]%nat ∧
  entry t (fen b) (uci 0%nat) = None ∧
  get_q t (fen b) (uci 0%nat) = 0%Q ∧
  (get_q t (fen b) (uci 0%nat) <= get_q t (fen b) (uci 1%nat))%Q.
Proof.
  intros t ai b.
  destruct (get_ordered_moves_sorted_stable ai b) as (_ & Hzero & Hsorted & _).
  split; [reflexivity|]. split; [reflexivity|]. split; [reflexivity|].
  split.
  - apply Hzero. reflexivity.
  - apply (Hsorted 0%nat 1%nat 1%nat 0%nat); [lia|reflexivity..].
Defined.

(** ** The driver *)

Section Driver.
Context {Board Move : Type} `{RulesEngine Board Move}.
Variable ai : ChessAI.

Lemma root_values_length depth b moves :
  ∀ alpha, length (root_values ai depth b moves alpha) = length moves.
Proof. induction moves as [|m rest IH]; intros alpha; simpl; [done|]. by rewrite IH. Qed.

Lemma root_values_Fin depth b moves :
  ∀ alpha v, v ∈ root_values ai depth b moves alpha → ∃ z, v = Fin z.
Proof.
  induction moves as [|m rest IH]; intros alpha v Hv; simpl in Hv.
  - by apply elem_of_nil in Hv.
  - apply elem_of_cons in Hv as [->|Hv]; [apply search_value_Fin|by eapply IH].
Qed.

Lemma root_result_eq depth b moves :
  ∀ alpha current_best current_value tree,
    root_result ai depth b moves alpha PosInf current_best current_value tree
    = (pick moves (root_values ai depth b moves alpha) current_best
            current_value,
       fill tree depth moves (root_values ai depth b moves alpha)).
Proof.
  induction moves as [|m rest IH]; intros alpha cb cv tree; [done|].
  cbn [root_result root_values pick]. unfold fill. cbn [zip zip_with foldl].
  destruct (elt cv _); by rewrite IH.
Qed.

(** [pick] keeps the first of the greatest values. *)
Lemma pick_spec (moves : list Move) :
  ∀ values cb cv,
    length values = length moves →
    (pick moves values cb cv = (cb, cv) ∧
     ∀ v, v ∈ values → ele v cv = true)
    ∨ (∃ i m v,
         moves !! i = Some m ∧ values !! i = Some v ∧
         pick moves values cb cv = (Some m, v) ∧
         elt cv v = true ∧
         (∀ j v', values !! j = Some v' → ele v' v = true) ∧
         (∀ j v', (j < i)%nat → values !! j = Some v' → elt v' v = true)).
Proof.
  induction moves as [|m rest IH]; intros values cb cv Hlen.
  - destruct values; [|done]. left. split; [done|].
    intros v Hv. by apply elem_of_nil in Hv.
  - destruct values as [|v0 vs]; [done|]. injection Hlen as Hlen.
    cbn [pick]. destruct (elt cv v0) eqn:Hv0.
    + right. destruct (IH vs (Some m) v0 Hlen)
        as [[Heq Hall]|(i & m' & v & Hm & Hv & Heq & Hgt & Hmax & Hfirst)].
      * exists O, m, v0. repeat split; try done.
        -- intros [|j] v' Hj; simpl in Hj.
           ++ injection Hj as <-. apply ele_refl.
           ++ apply Hall. by eapply list_elem_of_lookup_2.
        -- intros j v' Hj. lia.
      * exists (S i), m', v. repeat split; try done.
        -- clear -Hv0 Hgt. ez.
        -- intros [|j] v' Hj; simpl in Hj.
           ++ injection Hj as <-. clear -Hgt. ez.
           ++ by eapply Hmax.
        -- intros [|j] v' Hlt Hj; simpl in Hj.
           ++ by injection Hj as <-.
           ++ eapply Hfirst; [|done]. lia.
    + destruct (IH vs cb cv Hlen)
        as [[Heq Hall]|(i & m' & v & Hm & Hv & Heq & Hgt & Hmax & Hfirst)].
      * left. split; [done|]. intros v Hv.
        apply elem_of_cons in Hv as [->|Hv]; [|by apply Hall].
        clear -Hv0. ez.
      * right. exists (S i), m', v. repeat split; try done.
        -- intros [|j] v' Hj; simpl in Hj.
           ++ injection Hj as <-. clear -Hv0 Hgt. ez.
           ++ by eapply Hmax.
        -- intros [|j] v' Hlt Hj; simpl in Hj.
           ++ injection Hj as <-. clear -Hv0 Hgt. ez.
           ++ eapply Hfirst; [|done]. lia.
Qed.

(** From [-inf], over finite values, the first move always becomes the
    candidate: the previous depth's choice does not survive. *)
Lemma pick_first (moves : list Move) values cb :
  moves ≠ [] →
  length values = length moves →
  (∀ v, v ∈ values → ∃ z, v = Fin z) →
  ∃ i m v,
    moves !! i = Some m ∧ values !! i = Some v ∧
    pick moves values cb NegInf = (Some m, v) ∧
    (∀ j v', values !! j = Some v' → ele v' v = true) ∧
    (∀ j v', (j < i)%nat → values !! j = Some v' → elt v' v = true).
Proof.
  intros Hne Hlen Hfin.
  destruct (pick_spec moves values cb NegInf Hlen)
    as [[_ Hall]|(i & m & v & Hm & Hv & Heq & _ & Hmax & Hfirst)].
  - exfalso. destruct moves as [|m0 ms]; [done|].
    destruct values as [|v0 vs]; [done|].
    destruct (Hfin v0) as [z ->]; [by left|].
    by specialize (Hall (Fin z) ltac:(by left)).
  - exists i, m, v. done.
Qed.

Lemma pick_any_start (moves : list Move) values cb cb' :
  moves ≠ [] →
  length values = length moves →
  (∀ v, v ∈ values → ∃ z, v = Fin z) →
  pick moves values cb NegInf = pick moves values cb' NegInf.
Proof.
  intros Hne Hlen Hfin. destruct moves as [|m0 ms]; [done|].
  destruct values as [|v0 vs]; [done|].
  destruct (Hfin v0) as [z ->]; [by left|]. done.
Qed.

Lemma fill_lookup_ne d d' moves :
  d' ≠ d →
  ∀ values (tree : SearchTree), fill tree d moves values !! d' = tree !! d'.
Proof.
  intros Hne. unfold fill.
  induction moves as [|m rest IH]; intros [|v vs] tree; try done.
  cbn [zip zip_with foldl]. rewrite IH. unfold set_score.
  by rewrite lookup_insert_ne.
Qed.

Lemma fill_lookup_eq d moves :
  ∀ values (tree : SearchTree) row,
    tree !! d = Some row →
    fill tree d moves values !! d = Some (fill_row row moves values).
Proof.
  unfold fill, fill_row.
  induction moves as [|m rest IH]; intros [|v vs] tree row Hrow; try done.
  cbn [zip zip_with foldl]. apply IH. unfold set_score.
  by rewrite lookup_insert_eq, Hrow.
Qed.

Lemma fill_row_notin (k : string) moves :
  k ∉ uci <$> moves →
  ∀ values (row : gmap string EZ), fill_row row moves values !! k = row !! k.
Proof.
  unfold fill_row.
  induction moves as [|m rest IH]; intros Hk [|v vs] row; try done.
  cbn [zip zip_with foldl]. rewrite fmap_cons, not_elem_of_cons in Hk.
  destruct Hk as [Hk1 Hk2]. rewrite (IH Hk2). by rewrite lookup_insert_ne.
Qed.

Lemma fill_row_lookup moves :
  NoDup (uci <$> moves) →
  ∀ values (row : gmap string EZ) i m v,
    moves !! i = Some m → values !! i = Some v →
    fill_row row moves values !! uci m = Some v.
Proof.
  induction moves as [|m0 rest IH]; intros Hnd values row i m v Hm Hv; [done|].
  destruct values as [|v0 vs]; [done|].
  rewrite fmap_cons, NoDup_cons in Hnd. destruct Hnd as [Hnotin Hnd].
  destruct i as [|i]; simpl in Hm, Hv.
  - injection Hm as <-. injection Hv as <-.
    change (fill_row row (m0 :: rest) (v0 :: vs))
      with (fill_row (<[uci m0 := v0]> row) rest vs).
    rewrite fill_row_notin; [|done]. by rewrite lookup_insert_eq.
  - change (fill_row row (m0 :: rest) (v0 :: vs))
      with (fill_row (<[uci m0 := v0]> row) rest vs).
    by eapply IH.
Qed.

Lemma record_rows_notin b legal d depths :
  d ∉ depths →
  ∀ tree : SearchTree, record_rows ai b legal tree depths !! d = tree !! d.
Proof.
  unfold record_rows.
  induction depths as [|d0 rest IH]; intros Hd tree; [done|].
  rewrite not_elem_of_cons in Hd. destruct Hd as [Hne Hd].
  cbn [foldl]. rewrite (IH Hd), fill_lookup_ne; [|done].
  by rewrite lookup_insert_ne.
Qed.

Lemma record_rows_in b legal d depths :
  NoDup depths → d ∈ depths →
  ∀ tree : SearchTree,
    record_rows ai b legal tree depths !! d
    = Some (fill_row ∅ legal (root_values ai d b legal NegInf)).
Proof.
  induction depths as [|d0 rest IH]; intros Hnd Hd tree.
  - by apply elem_of_nil in Hd.
  - rewrite NoDup_cons in Hnd. destruct Hnd as [Hnotin Hnd].
    change (record_rows ai b legal tree (d0 :: rest))
      with (record_rows ai b legal
              (fill (<[d0 := ∅]> tree) d0 legal
                    (root_values ai d0 b legal NegInf)) rest).
    apply elem_of_cons in Hd as [->|Hd].
    + rewrite record_rows_notin; [|done].
      apply fill_lookup_eq. by rewrite lookup_insert_eq.
    + by apply IH.
Qed.

Lemma completed_le times st depths :
  (completed ai times st depths ≤ length depths)%nat.
Proof.
  induction depths as [|d rest IH]; simpl; [done|]. case_match; lia.
Qed.

Lemma depth_result_eq times st b legal :
  legal ≠ [] →
  (∀ m, m ∈ legal → move_bool m = true) →
  ∀ depths best_move best_value tree,
    depth_result ai times st b legal depths best_move best_value tree
    = (foldl (λ _ d, best_at ai b legal d) best_move
             (take (completed ai times st depths) depths),
       record_rows ai b legal tree
                   (take (completed ai times st depths) depths)).
Proof.
  intros Hne Htruthy depths.
  induction depths as [|d rest IH]; intros bm bv tree; [done|].
  cbn [depth_result completed].
  destruct (Qltb (time_limit ai) (times d - st)); [done|].
  rewrite root_result_eq.
  pose proof (root_values_length d b legal NegInf) as Hlen.
  pose proof (root_values_Fin d b legal NegInf) as Hfin.
  rewrite (pick_any_start legal _ bm None Hne Hlen Hfin).
  destruct (pick_first legal _ None Hne Hlen Hfin)
    as (i & m & v & Hm & Hv & Heq & _).
  cbn [take foldl]. unfold best_at at 2. rewrite Heq.
  cbn [truthy fst]. rewrite (Htruthy m); [|by eapply list_elem_of_lookup_2].
  by rewrite IH.
Qed.

Lemma foldl_last_seq {A} (f : nat → A) (x : A) (k : nat) :
  foldl (λ _ d, f d) x (seq 1 k) = match k with O => x | S _ => f k end.
Proof.
  destruct k as [|k]; [done|]. by rewrite seq_S, foldl_app.
Qed.

(** What the driver returns when there is a legal move: the rows of the
    completed depths 1..k, and the move picked at depth k. *)
Lemma driver_result_eq times b :
  get_ordered_moves ai b ≠ [] →
  (∀ m, m ∈ legal_moves b → move_bool m = true) →
  let legal := get_ordered_moves ai b in
  let k := completed ai times (times O) (seq 1 (max_depth ai)) in
  driver_result ai times b
  = (match k with O => None | S _ => best_at ai b legal k end,
     Some (record_rows ai b legal ∅ (seq 1 k))).
Proof.
  intros Hne Htruthy legal k. unfold driver_result. fold legal.
  destruct legal as [|m0 ms] eqn:Hlegal; [done|].
  rewrite depth_result_eq; [|done|].
  - fold k. rewrite take_seq.
    assert (Hk : (k `min` max_depth ai = k)%nat).
    { pose proof (completed_le times (times O) (seq 1 (max_depth ai))) as Hle.
      rewrite length_seq in Hle. fold k in Hle. lia. }
    rewrite Hk. by rewrite foldl_last_seq.
  - intros m Hm. apply Htruthy.
    rewrite <- (get_ordered_moves_Permutation ai b). fold legal.
    by rewrite Hlegal.
Qed.

End Driver.

Section DriverClaims.
Context {Board Move : Type} `{RulesEngine Board Move}.
Variable ai : ChessAI.

Lemma completed_seq times st n :
  ∀ s,
    let k := completed ai times st (seq s n) in
    (∀ d, (s ≤ d < s + k)%nat → Qltb (time_limit ai) (times d - st) = false) ∧
    ((k < n)%nat → Qltb (time_limit ai) (times (s + k)%nat - st) = true).
Proof.
  induction n as [|n IH]; intros s; cbn [seq completed].
  - split; [intros d Hd; lia | intros Hk; lia].
  - destruct (Qltb (time_limit ai) (times s - st)) eqn:Hs.
    + split; [intros d Hd; lia|]. intros _. by rewrite Nat.add_0_r.
    + destruct (IH (S s)) as [IH1 IH2]. split.
      * intros d Hd. destruct (decide (d = s)) as [->|Hne]; [done|].
        apply IH1. lia.
      * intros Hk. rewrite <- Nat.add_succ_comm. apply IH2. lia.
Qed.

(** A depth that starts within the budget is run to its end: the depths
    the driver completes are those that end within the budget and at most
    one more. *)
Lemma finished_completed times st n :
  ∀ s,
    (finished ai times st (seq s n) ≤ completed ai times st (seq s n))%nat ∧
    (completed ai times st (seq s n) ≤ S (finished ai times st (seq s n)))%nat.
Proof.
  induction n as [|n IH]; intros s; cbn [seq finished completed]; [lia|].
  destruct (Qltb (time_limit ai) (times s - st)) eqn:Hs; [lia|].
  destruct (Qltb (time_limit ai) (times (S s) - st)) eqn:Hs'.
  - split; [lia|]. destruct n as [|n]; cbn [seq completed]; [lia|].
    rewrite Hs'. lia.
  - destruct (IH (S s)). lia.
Qed.

(** The value recorded for the [i]-th root move was searched with the
    window that starts at the greatest value recorded before it. *)
Lemma root_values_lookup depth b moves :
  ∀ alpha i m,
    moves !! i = Some m →
    root_values ai depth b moves alpha !! i
    = Some (search_value ai (depth - 1)
              (foldl emax alpha (take i (root_values ai depth b moves alpha)))
              PosInf false (push b m)).
Proof.
  induction moves as [|m0 rest IH]; intros alpha i m Hm; [done|].
  destruct i as [|i]; simpl in Hm.
  - by injection Hm as <-.
  - cbn [root_values take foldl lookup list_lookup]. by apply IH.
Qed.

Lemma foldl_emax_Fin (l : list EZ) :
  (∀ v, v ∈ l → ∃ z, v = Fin z) →
  ∀ x, x ≠ PosInf → foldl emax x l ≠ PosInf.
Proof.
  induction l as [|y l IH]; intros Hfin x Hx; [done|].
  cbn [foldl]. apply IH.
  - intros v Hv. apply Hfin. by right.
  - destruct (Hfin y) as [z ->]; [by left|].
    destruct (emax_Fin x z Hx) as [z' ->]. done.
Qed.

End DriverClaims.

(** C6, as the code has it.  When there is a legal move, the driver runs
    the depths 1..k, k being the number of depths, in order, at whose
    start the elapsed time does not exceed the limit: a depth that starts
    within the budget is run to its end and adopted, however late it
    ends, so k is the number of depths that end within the budget or one
    more.  The score table has a row for exactly these depths.  For
    k = 0 the driver returns no move.  Otherwise row k holds, for every
    root move, the answer of [alpha_beta] at depth k - 1 for the window
    that starts at the greatest value recorded before it, and the driver
    returns the first move, in the root ordering, whose value in row k is
    the greatest of that row. *)
Theorem driver_returns_deepest_first_best {Board Move : Type}
    `{RulesEngine Board Move} (ai : ChessAI) (times : nat → Q)
    (w : World Board Move) :
  pop_undoes_push →
  legal_moves (board w) ≠ [] →
  (∀ m, m ∈ legal_moves (board w) → move_bool m = true) →
  NoDup (uci <$> legal_moves (board w)) →
  let moves := get_ordered_moves ai (board w) in
  let k := completed ai times (times O) (seq 1 (max_depth ai)) in
  let f := finished ai times (times O) (seq 1 (max_depth ai)) in
  (k ≤ max_depth ai)%nat ∧
  (∀ d, (1 ≤ d ≤ k)%nat → Qltb (time_limit ai) (times d - times O) = false) ∧
  ((k < max_depth ai)%nat →
     Qltb (time_limit ai) (times (S k) - times O) = true) ∧
  (f ≤ k ≤ S f)%nat ∧
  ∃ tree : SearchTree,
    (iterative_deepening ai times w).1.2 = Some tree ∧
    (∀ d, is_Some (tree !! d) ↔ (1 ≤ d ≤ k)%nat) ∧
    (k = O → (iterative_deepening ai times w).1.1 = None) ∧
    ((0 < k)%nat →
       ∃ (row : gmap string EZ) (values : list EZ) (i : nat) (m : Move)
         (v : EZ),
         tree !! k = Some row ∧
         length values = length moves ∧
         (∀ (j : nat) (m' : Move),
            moves !! j = Some m' →
            ∃ v' : EZ,
              values !! j = Some v' ∧
              row !! uci m' = Some v' ∧
              v' = (alpha_beta ai (k - 1)
                      (foldl emax NegInf (take j values)) PosInf false
                      (mkWorld (push (board w) m') [])).1) ∧
         (iterative_deepening ai times w).1.1 = Some m ∧
         moves !! i = Some m ∧
         values !! i = Some v ∧
         row !! uci m = Some v ∧
         ∀ (j : nat) (v' : EZ),
           values !! j = Some v' →
           ele v' v = true ∧ ((j < i)%nat → elt v' v = true)).
Proof.
  intros Hpp Hne Htruthy Hnd moves k f.
  pose proof (completed_le ai times (times O) (seq 1 (max_depth ai))) as Hle.
  rewrite length_seq in Hle. fold k in Hle.
  destruct (completed_seq ai times (times O) (max_depth ai) 1) as [Hin Hout].
  fold k in Hin, Hout.
  split; [done|]. split; [intros d Hd; apply Hin; lia|].
  split; [intros Hk; by apply Hout|].
  split; [apply finished_completed|].
  destruct (iterative_deepening_run Hpp ai times w) as (t & _ & ->).
  cbn [fst snd].
  assert (Hord : moves ≠ []).
  { unfold moves. by rewrite get_ordered_moves_nil. }
  rewrite (driver_result_eq ai times (board w) Hord Htruthy).
  fold moves k. cbn [fst snd].
  assert (Hnd' : NoDup (uci <$> moves)).
  { unfold moves. by rewrite (get_ordered_moves_Permutation ai (board w)). }
  eexists. split; [done|]. split; [|split].
  - intros d. destruct (decide (d ∈ seq 1 k)) as [Hd|Hd].
    + rewrite record_rows_in; [|apply NoDup_seq|done].
      apply elem_of_seq in Hd. split; [lia|eauto].
    + rewrite record_rows_notin; [|done]. rewrite lookup_empty.
      rewrite elem_of_seq in Hd. split; [by intros []|lia].
  - by intros ->.
  - intros Hk. clear f. destruct k as [|k']; [lia|]. set (k := S k') in *.
    set (values := root_values ai k (board w) moves NegInf).
    pose proof (root_values_length ai k (board w) moves NegInf) as Hlen.
    pose proof (root_values_Fin ai k (board w) moves NegInf) as Hfin.
    fold values in Hlen, Hfin.
    destruct (pick_first moves values None Hord Hlen Hfin)
      as (i & m & v & Hm & Hv & Heq & Hmax & Hfirst).
    exists (fill_row ∅ moves values), values, i, m, v.
    split; [|split; [|split; [|split; [|split; [|split; [|split]]]]]].
    + apply record_rows_in; [apply NoDup_seq|]. apply elem_of_seq. lia.
    + done.
    + intros j m' Hj.
      pose proof (root_values_lookup ai k (board w) moves NegInf j m' Hj)
        as Hvj.
      fold values in Hvj.
      eexists. split; [exact Hvj|]. split; [by eapply fill_row_lookup|].
      destruct (alpha_beta_run Hpp ai (k - 1)
                  (foldl emax NegInf (take j values)) PosInf false
                  (mkWorld (push (board w) m') [])) as (t' & _ & ->).
      done.
    + unfold best_at. fold values. by rewrite Heq.
    + done.
    + done.
    + by eapply fill_row_lookup.
    + intros j v' Hj. split; [by eapply Hmax|].
      intros Hlt. by eapply Hfirst.
Qed.

Lemma driver_returns_deepest_first_best_witness :
  let ai := mkChessAI (TreeGame.empty_table "q1") 3 1 in
  let w := mkWorld (TreeGame.start TreeGame.second_thoughts) [] in
  @pop_undoes_push TreeGame.TreeBoard nat _ ∧
  legal_moves (board w) ≠ [] ∧
  (∀ m, m ∈ legal_moves (board w) → move_bool m = true) ∧
  NoDup (uci <$> legal_moves (board w)) ∧
  completed ai TreeGame.slow_second_depth 0 (seq 1 (max_depth ai)) = 2%nat ∧
  finished ai TreeGame.slow_second_depth 0 (seq 1 (max_depth ai)) = 1%nat ∧
  ∃ tree : SearchTree,
    (iterative_deepening ai TreeGame.slow_second_depth w).1.2 = Some tree ∧
    (∀ d, is_Some (tree !! d) ↔ (1 ≤ d ≤ 2)%nat).
Proof.
  intros ai w.
  assert (H1 : legal_moves (board w) ≠ []) by (vm_compute; discriminate).
  assert (H2 : ∀ m, m ∈ legal_moves (board w) → move_bool m = true) by done.
  assert (H3 : NoDup (uci <$> legal_moves (board w))).
  { apply (bool_decide_unpack _). vm_compute. exact I. }
  split; [exact tree_pop_push|]. split; [exact H1|]. split; [exact H2|].
  split; [exact H3|]. split; [reflexivity|]. split; [reflexivity|].
  destruct (driver_returns_deepest_first_best ai TreeGame.slow_second_depth w
              tree_pop_push H1 H2 H3)
    as (_ & _ & _ & _ & tree & Htree & Hrows & _).
  exists tree. split; [exact Htree|exact Hrows].
Defined.

(** C6, counterexample.  White to move; one ply deep move a is best (500
    against 100), two plies deep move b (100 against 0).  The limit is one
    second and depth 2, started after half a second, ends after five.
    Depth 1 is the deepest depth that ended within the budget and its
    best move is a; the driver returns b, the best move of depth 2. *)
Lemma driver_adopts_late_depth :
  let ai := mkChessAI (TreeGame.empty_table "q1") 3 1 in
  let w := mkWorld (TreeGame.start TreeGame.second_thoughts) [] in
  finished ai TreeGame.slow_second_depth 0 (seq 1 (max_depth ai)) = 1%nat ∧
  best_at ai (board w) (get_ordered_moves ai (board w)) 1 = Some 0%nat ∧
  (iterative_deepening ai TreeGame.slow_second_depth w).1.1 = Some 1%nat ∧
  ¬ returns_deepest_finished ai TreeGame.slow_second_depth w.
Proof.
  intros ai w.
  assert (Hrun : (iterative_deepening ai TreeGame.slow_second_depth w).1.1
                 = Some 1%nat) by (vm_compute; reflexivity).
  assert (Hone : best_at ai (board w) (get_ordered_moves ai (board w)) 1
                 = Some 0%nat) by (vm_compute; reflexivity).
  split; [reflexivity|]. split; [exact Hone|]. split; [exact Hrun|].
  unfold returns_deepest_finished. rewrite Hrun.
  change (finished ai TreeGame.slow_second_depth
            (TreeGame.slow_second_depth 0) (seq 1 (max_depth ai)))
    with 1%nat.
  rewrite Hone. discriminate.
Qed.

(** C2, as the code has it.  In every row of the score table, the value
    recorded for a root move is the answer of [alpha_beta] at depth - 1,
    minimizing, with the window (a, +inf), where a is the greatest value
    recorded before it in that row (-inf for the first move).  It is the
    exact minimax value of the position after the move whenever it
    exceeds a; otherwise it is an upper bound of that value, not above
    a. *)
Theorem score_table_rows_fail_soft {Board Move : Type}
    `{RulesEngine Board Move} (ai : ChessAI) (times : nat → Q)
    (w : World Board Move) :
  pop_undoes_push →
  (∀ m, m ∈ legal_moves (board w) → move_bool m = true) →
  NoDup (uci <$> legal_moves (board w)) →
  let moves := get_ordered_moves ai (board w) in
  ∀ (tree : SearchTree) (d : nat) (row : gmap string EZ),
    (iterative_deepening ai times w).1.2 = Some tree →
    tree !! d = Some row →
    ∃ values : list EZ,
      length values = length moves ∧
      ∀ (i : nat) (m : Move),
        moves !! i = Some m →
        ∃ v : EZ,
          values !! i = Some v ∧
          row !! uci m = Some v ∧
          let a := foldl emax NegInf (take i values) in
          let exact := minimax (d - 1) false (push (board w) m) in
          v = (alpha_beta ai (d - 1) a PosInf false
                          (mkWorld (push (board w) m) [])).1 ∧
          (elt a v = true → v = exact) ∧
          (ele v a = true → ele exact v = true).
Proof.
  intros Hpp Htruthy Hnd moves tree d row.
  destruct (iterative_deepening_run Hpp ai times w) as (t & _ & ->).
  cbn [fst snd].
  destruct (decide (moves = [])) as [Hnil|Hord].
  { unfold driver_result. fold moves. by rewrite Hnil. }
  rewrite (driver_result_eq ai times (board w) Hord Htruthy).
  fold moves. cbn [snd].
  set (k := completed ai times (times O) (seq 1 (max_depth ai))).
  intros [= <-] Hrow.
  assert (Hd : d ∈ seq 1 k).
  { destruct (decide (d ∈ seq 1 k)) as [|Hno]; [done|].
    by rewrite record_rows_notin in Hrow. }
  rewrite record_rows_in in Hrow; [|apply NoDup_seq|done].
  injection Hrow as <-.
  assert (Hnd' : NoDup (uci <$> moves)).
  { unfold moves. by rewrite (get_ordered_moves_Permutation ai (board w)). }
  set (values := root_values ai d (board w) moves NegInf).
  pose proof (root_values_length ai d (board w) moves NegInf) as Hlen.
  fold values in Hlen.
  exists values. split; [done|]. intros i m Hm.
  pose proof (root_values_lookup ai d (board w) moves NegInf i m Hm) as Hv.
  fold values in Hv.
  eexists. split; [exact Hv|]. split; [by eapply fill_row_lookup|].
  cbn zeta.
  set (a := foldl emax NegInf (take i values)).
  destruct (alpha_beta_run Hpp ai (d - 1) a PosInf false
              (mkWorld (push (board w) m) [])) as (t' & _ & ->).
  cbn [fst board]. split; [done|].
  assert (Ha : elt a PosInf = true).
  { assert (a ≠ PosInf) as Hne; [|clear -Hne; destruct a; done].
    apply foldl_emax_Fin; [|done].
    intros v Hv'. apply (root_values_Fin ai d (board w) moves NegInf).
    fold values. apply elem_of_take in Hv' as (j & Hj & _).
    by eapply list_elem_of_lookup_2. }
  destruct (search_value_within ai (d - 1) a PosInf false
              (push (board w) m) Ha) as (Hlow & _ & Hin).
  split; [|done].
  intros Hgt. apply Hin; [done|].
  destruct (search_value_Fin ai (d - 1) a PosInf false (push (board w) m))
    as [z ->]. done.
Qed.

Lemma score_table_rows_fail_soft_witness :
  let ai := mkChessAI (TreeGame.empty_table "q1") 2 1 in
  let w := mkWorld (TreeGame.start TreeGame.two_replies) [] in
  @pop_undoes_push TreeGame.TreeBoard nat _ ∧
  (∀ m, m ∈ legal_moves (board w) → move_bool m = true) ∧
  NoDup (uci <$> legal_moves (board w)) ∧
  ∀ (tree : SearchTree) (row : gmap string EZ),
    (iterative_deepening ai TreeGame.frozen_clock w).1.2 = Some tree →
    tree !! 2%nat = Some row →
    ∃ values : list EZ,
      length values = length (get_ordered_moves ai (board w)).
Proof.
  intros ai w.
  assert (H2 : ∀ m, m ∈ legal_moves (board w) → move_bool m = true) by done.
  assert (H3 : NoDup (uci <$> legal_moves (board w))).
  { apply (bool_decide_unpack _). vm_compute. exact I. }
  split; [exact tree_pop_push|]. split; [exact H2|]. split; [exact H3|].
  intros tree row Htree Hrow.
  destruct (score_table_rows_fail_soft ai TreeGame.frozen_clock w
              tree_pop_push H2 H3 tree 2%nat row Htree Hrow)
    as (values & Hlen & _).
  exists values. exact Hlen.
Defined.

(** C2, counterexample.  White to move; move a reaches a position worth
    500, move b a position where Black chooses between 300 and 100.  At
    depth 2 move b is searched with the window (500, +inf): the search
    stops at Black's first reply and 300 is recorded, while the minimax
    value of the position after b is 100. *)
Lemma score_table_not_exact :
  ¬ score_table_exact (make_ai (TreeGame.empty_table "q1"))
      TreeGame.frozen_clock
      (mkWorld (TreeGame.start TreeGame.two_replies) []).
Proof.
  intros Hexact.
  set (ai := make_ai (TreeGame.empty_table "q1")) in *.
  set (w := mkWorld (TreeGame.start TreeGame.two_replies) []) in *.
  assert (Hrec :
    match (iterative_deepening ai TreeGame.frozen_clock w).1.2 with
    | Some tree => match tree !! 2%nat with
                   | Some row => row !! "b"
                   | None => None
                   end
    | None => None
    end = Some (Fin 300)) by (vm_compute; reflexivity).
  destruct ((iterative_deepening ai TreeGame.frozen_clock w).1.2)
    as [tree|] eqn:Htree; [|discriminate].
  destruct (tree !! 2%nat) as [row|] eqn:Hrow; [|discriminate].
  assert (Hb : 1%nat ∈ legal_moves (board w))
    by (apply (list_elem_of_lookup_2 _ 1%nat); reflexivity).
  specialize (Hexact tree 2%nat row 1%nat Htree Hrow Hb).
  change (uci 1%nat) with "b" in Hexact. rewrite Hexact in Hrec.
  vm_compute in Hrec. discriminate.
Qed.

(** ** Terminal credit assignment *)

Section Credit.
Context {Board Move : Type} `{RulesEngine Board Move} `{EqDecision Move}.

Lemma replay_both reward history :
  ∀ (q1 : QTable) (q2 : option QTable),
    foldl (λ '(q1, q2) '(fen, move),
             (update q1 fen move reward LEARNING_RATE,
              (λ t, update t fen move (- reward)%Q LEARNING_RATE) <$> q2))
          (q1, q2) history
    = (replay reward history q1, replay (- reward)%Q history <$> q2).
Proof.
  induction history as [|[f m] rest IH]; intros q1 q2.
  - by destruct q2.
  - cbn [foldl]. rewrite IH. unfold replay. cbn [foldl]. by destruct q2.
Qed.

Lemma game_over_block_tables (g : Game Board) :
  is_game_over (g_board g) = true →
  let reward := terminal_reward (goal_test (g_board g)) in
  qtable1 (game_over_block g) = replay reward (move_history g) (qtable1 g) ∧
  qtable2 (game_over_block g)
  = replay (- reward)%Q (move_history g) <$> qtable2 g.
Proof.
  intros Hover reward. unfold game_over_block. rewrite Hover.
  fold reward. by rewrite replay_both.
Qed.

Lemma terminal_reward_goal_test (b : Board) :
  let reward := terminal_reward (goal_test b) in
  (is_checkmate b = true → turn b = BLACK → reward = 1%Q) ∧
  (is_checkmate b = true → turn b = WHITE → reward = (-1)%Q) ∧
  (is_checkmate b = false → reward = 0%Q).
Proof.
  unfold goal_test. repeat split.
  - by intros -> ->.
  - by intros -> ->.
  - intros ->. by destruct (is_stalemate b || is_insufficient_material b).
Qed.

Lemma human_move_recorded (move : Move) (g : Game Board) :
  move ∈ legal_moves (g_board g) →
  g_board (human_move move g) = push (g_board g) move ∧
  (move_history (human_move move g)).*2 = (move_history g).*2 ++ [uci move].
Proof.
  intros Hlegal. unfold human_move. rewrite bool_decide_eq_true_2; [|done].
  cbn. by rewrite fmap_app.
Qed.

Lemma ai_move_recorded (times : nat → Q) (g : Game Board) :
  pop_undoes_push →
  (g_board (ai_move times g) = g_board g ∧
   move_history (ai_move times g) = move_history g)
  ∨ (∃ mv : Move,
       g_board (ai_move times g) = push (g_board g) mv ∧
       (move_history (ai_move times g)).*2 = (move_history g).*2 ++ [uci mv]).
Proof.
  intros Hpp. unfold ai_move.
  destruct (is_game_over (g_board g)); [by left|].
  destruct (self_play g || negb (self_play g) && not_player_turn g);
    [|by left].
  destruct (if negb (bool_decide (turn (g_board g) = WHITE)) && self_play g
            then qtable2 g else Some (qtable1 g)) as [t|]; [|by left].
  destruct (compute_best_move_run Hpp (make_ai t) times
              (mkWorld (g_board g) [])) as (tr & _ & ->).
  cbn [board].
  destruct (decision_result (make_ai t) times (g_board g))
    as [[[mv|] tree] t']; [|by left].
  destruct (move_bool mv); [|by left].
  right. exists mv. cbn. by rewrite fmap_app.
Qed.

End Credit.

(** C1, as the code has it.  Every move pushed during a game, by the human
    or by either AI, adds one entry with the move's identity to the one
    move history of the game.  When the game is over, the reward of
    [ai1.goal_test] (+1 when Black is mated, -1 when White is mated, 0
    otherwise) is applied by the update rule to the first table once for
    every entry of that history, in order, and the negated reward to the
    second table, if there is one, for the same entries. *)
Theorem terminal_credit_whole_history {Board Move : Type}
    `{RulesEngine Board Move} `{EqDecision Move} (g : Game Board) :
  pop_undoes_push →
  is_game_over (g_board g) = true →
  let reward := terminal_reward (goal_test (g_board g)) in
  (qtable1 (game_over_block g) = replay reward (move_history g) (qtable1 g) ∧
   qtable2 (game_over_block g)
   = replay (- reward)%Q (move_history g) <$> qtable2 g) ∧
  ((is_checkmate (g_board g) = true → turn (g_board g) = BLACK →
    reward = 1%Q) ∧
   (is_checkmate (g_board g) = true → turn (g_board g) = WHITE →
    reward = (-1)%Q) ∧
   (is_checkmate (g_board g) = false → reward = 0%Q)) ∧
  (∀ (move : Move) (g0 : Game Board),
     move ∈ legal_moves (g_board g0) →
     g_board (human_move move g0) = push (g_board g0) move ∧
     (move_history (human_move move g0)).*2
     = (move_history g0).*2 ++ [uci move]) ∧
  (∀ (times : nat → Q) (g0 : Game Board),
     (g_board (ai_move times g0) = g_board g0 ∧
      move_history (ai_move times g0) = move_history g0)
     ∨ (∃ mv : Move,
          g_board (ai_move times g0) = push (g_board g0) mv ∧
          (move_history (ai_move times g0)).*2
          = (move_history g0).*2 ++ [uci mv])).
Proof.
  intros Hpp Hover reward.
  split; [by apply game_over_block_tables|].
  split; [apply terminal_reward_goal_test|].
  split; [intros; by apply human_move_recorded|].
  intros. by apply ai_move_recorded.
Qed.

Lemma terminal_credit_whole_history_witness :
  let g := TreeGame.self_play_after_one in
  let reward := terminal_reward (goal_test (g_board g)) in
  @pop_undoes_push TreeGame.TreeBoard nat _ ∧
  is_game_over (g_board g) = true ∧
  qtable1 (game_over_block g) = replay reward (move_history g) (qtable1 g) ∧
  qtable2 (game_over_block g)
  = replay (- reward)%Q (move_history g) <$> qtable2 g.
Proof.
  intros g reward.
  assert (Hover : is_game_over (g_board g) = true) by (vm_compute; reflexivity).
  split; [exact tree_pop_push|]. split; [exact Hover|].
  destruct (terminal_credit_whole_history g tree_pop_push Hover) as [Htables _].
  exact Htables.
Defined.

(** C1, counterexample.  Self-play from a position where White mates in
    one.  White ([ai1]) plays the mating move a from "root" and the game is
    over; Black ([ai2]) has not moved.  The history holds the pair
    ("mate", a), the identity of the position after the move, and both
    tables are updated for it: the first table gets no terminal credit
    for ("root", a), and the second table, whose owner played nothing, is
    changed. *)
Lemma terminal_credit_not_as_stated :
  let g0 := TreeGame.self_play_start in
  let g := TreeGame.self_play_after_one in
  turn (g_board g0) = WHITE ∧
  g_board g = push (g_board g0) 0%nat ∧
  is_game_over (g_board g) = true ∧
  move_history g = [("mate", "a")] ∧
  entry (qtable1 (game_over_block g)) "root" "a" = entry (qtable1 g) "root" "a" ∧
  ¬ terminal_credit_as_stated [(g_board g0, 0%nat)] g.
Proof.
  intros g0 g.
  split; [reflexivity|]. split; [vm_compute; reflexivity|].
  split; [vm_compute; reflexivity|]. split; [vm_compute; reflexivity|].
  split; [vm_compute; reflexivity|].
  intros [_ Hsecond].
  apply (f_equal (λ o : option QTable,
                    match o with
                    | Some t => entry t "mate" "a"
                    | None => None
                    end)) in Hsecond.
  vm_compute in Hsecond. discriminate.
Qed.

(** * Further properties *)

(** ** The Q-table: composition *)

Lemma q_update_lookup t f m r a f' :
  q (update t f m r a) !! f'
  = if decide (f = f')
    then Some (<[m := (get_q t f m + a * (r - get_q t f m))%Q]>
                 (default ∅ (q t !! f)))
    else q t !! f'.
Proof.
  unfold update, get_q. simpl. destruct (decide (f = f')) as [<-|Hne].
  - rewrite lookup_insert_eq.
    destruct (q t !! f) as [row|] eqn:Hrow; simpl.
    + by rewrite Hrow.
    + by rewrite lookup_insert_eq.
  - rewrite lookup_insert_ne; [|done].
    destruct (q t !! f); [done|]. by rewrite lookup_insert_ne.
Qed.

Lemma QTable_eq (t1 t2 : QTable) :
  filename t1 = filename t2 → max_size t1 = max_size t2 → q t1 = q t2 →
  t1 = t2.
Proof. destruct t1, t2. simpl. by intros -> -> ->. Qed.

Lemma get_q_update_ne t f m r a f' m' :
  (f', m') ≠ (f, m) → get_q (update t f m r a) f' m' = get_q t f' m'.
Proof. intros Hne. by rewrite !get_q_entry, entry_update_ne. Qed.

Lemma update_swap (t : QTable) (f1 m1 f2 m2 : string) (r1 a1 r2 a2 : Q) :
  (f1, m1) ≠ (f2, m2) →
  update (update t f1 m1 r1 a1) f2 m2 r2 a2
  = update (update t f2 m2 r2 a2) f1 m1 r1 a1.
Proof.
  intros Hne. apply QTable_eq; [done..|].
  apply map_eq. intros f. rewrite !q_update_lookup.
  rewrite !get_q_update_ne by congruence.
  repeat case_decide; simplify_eq; simpl; try done.
  f_equal. apply insert_insert_ne. congruence.
Qed.

(** X1. Two updates of different keys commute: the table after them is
    the same in either order, and each of the two entries is what updating
    it alone would have made it. *)
Theorem update_commute (t : QTable) (f1 m1 f2 m2 : string) (r1 a1 r2 a2 : Q) :
  (f1, m1) ≠ (f2, m2) →
  update (update t f1 m1 r1 a1) f2 m2 r2 a2
  = update (update t f2 m2 r2 a2) f1 m1 r1 a1 ∧
  entry (update (update t f1 m1 r1 a1) f2 m2 r2 a2) f1 m1
  = entry (update t f1 m1 r1 a1) f1 m1 ∧
  entry (update (update t f1 m1 r1 a1) f2 m2 r2 a2) f2 m2
  = entry (update t f2 m2 r2 a2) f2 m2.
Proof.
  intros Hne. split; [by apply update_swap|]. split.
  - by apply entry_update_ne.
  - rewrite !entry_update_eq. rewrite get_q_update_ne; [done|congruence].
Qed.

Lemma update_commute_witness :
  let t := TreeGame.empty_table "q1" in
  ("root", "a") ≠ ("root", "b") ∧
  update (update t "root" "a" 1 LEARNING_RATE) "root" "b" (-1) LEARNING_RATE
  = update (update t "root" "b" (-1) LEARNING_RATE) "root" "a" 1 LEARNING_RATE.
Proof.
  intros t. assert (Hne : ("root", "a") ≠ ("root", "b")) by done.
  split; [exact Hne|]. apply (update_commute t). exact Hne.
Defined.

(** ** The terminal replay over the move history *)

Lemma replay_cons r f m h t :
  replay r ((f, m) :: h) t = replay r h (update t f m r LEARNING_RATE).
Proof. done. Qed.

Lemma replay_Permutation r h1 h2 :
  Permutation h1 h2 → ∀ t, replay r h1 t = replay r h2 t.
Proof.
  induction 1 as [|[f m] h1 h2 _ IH|[f1 m1] [f2 m2] h|h1 h2 h3 _ IH1 _ IH2];
    intros t.
  - done.
  - rewrite !replay_cons. apply IH.
  - rewrite !replay_cons. f_equal.
    destruct (decide ((f2, m2) = (f1, m1))) as [[= -> ->]|Hne]; [done|].
    by apply update_swap.
  - by rewrite IH1.
Qed.

Lemma entry_replay_notin r h :
  ∀ t f m, (f, m) ∉ h → entry (replay r h t) f m = entry t f m.
Proof.
  induction h as [|[f0 m0] h IH]; intros t f m Hnotin; [done|].
  rewrite not_elem_of_cons in Hnotin. destruct Hnotin as [Hne Hnotin].
  rewrite replay_cons, IH by done. by apply entry_update_ne.
Qed.

Lemma get_q_replay r h :
  ∀ t f m,
    get_q (replay r h t) f m
    = Nat.iter (occurrences (f, m) h) (update_step LEARNING_RATE r)
               (get_q t f m).
Proof.
  induction h as [|[f0 m0] h IH]; intros t f m; [done|].
  rewrite replay_cons, IH. unfold occurrences. rewrite filter_cons.
  destruct (decide ((f0, m0) = (f, m))) as [[= -> ->]|Hne].
  - cbn [length]. rewrite Nat.iter_succ_r. by rewrite get_q_update_eq.
  - rewrite get_q_update_ne; [done|congruence].
Qed.

Section CreditMore.
Context {Board Move : Type} `{RulesEngine Board Move} `{EqDecision Move}.

Lemma game_over_block_tables_any (g : Game Board) :
  let reward := terminal_reward (goal_test (g_board g)) in
  let history := if is_game_over (g_board g) then move_history g else [] in
  qtable1 (game_over_block g) = replay reward history (qtable1 g) ∧
  qtable2 (game_over_block g) = replay (- reward)%Q history <$> qtable2 g.
Proof.
  intros reward history. unfold history.
  destruct (is_game_over (g_board g)) eqn:Hover.
  - by apply game_over_block_tables.
  - unfold game_over_block. rewrite Hover. simpl. by destruct (qtable2 g).
Qed.

End CreditMore.

(** X4. The terminal credit does not depend on the order of the moves:
    two finished games that differ only in the order of their history
    entries leave the same two tables. *)
Theorem terminal_credit_order_irrelevant {Board Move : Type}
    `{RulesEngine Board Move} `{EqDecision Move} (g g' : Game Board) :
  g_board g' = g_board g → qtable1 g' = qtable1 g → qtable2 g' = qtable2 g →
  Permutation (move_history g) (move_history g') →
  qtable1 (game_over_block g') = qtable1 (game_over_block g) ∧
  qtable2 (game_over_block g') = qtable2 (game_over_block g).
Proof.
  intros Hb H1 H2 Hperm.
  destruct (game_over_block_tables_any g) as [-> ->].
  destruct (game_over_block_tables_any g') as [-> ->].
  rewrite Hb, H1, H2. destruct (is_game_over (g_board g)); [|done].
  rewrite (replay_Permutation _ _ _ Hperm).
  split; [done|]. destruct (qtable2 g); [|done]. simpl.
  by rewrite (replay_Permutation _ _ _ Hperm).
Qed.

(** X5. At the end of a game a pair that occurs n times in the move
    history has had the update rule applied n times with the terminal
    reward in the first table (and with the negated reward in the second);
    a pair that does not occur in the history keeps its entry, and none is
    created for it. *)
Theorem terminal_credit_per_pair {Board Move : Type}
    `{RulesEngine Board Move} `{EqDecision Move} (g : Game Board)
    (f m : string) :
  is_game_over (g_board g) = true →
  let reward := terminal_reward (goal_test (g_board g)) in
  let n := occurrences (f, m) (move_history g) in
  get_q (qtable1 (game_over_block g)) f m
  = Nat.iter n (update_step LEARNING_RATE reward) (get_q (qtable1 g) f m) ∧
  (∀ t2, qtable2 g = Some t2 →
     ∃ t2', qtable2 (game_over_block g) = Some t2' ∧
       get_q t2' f m
       = Nat.iter n (update_step LEARNING_RATE (- reward)%Q) (get_q t2 f m)) ∧
  ((f, m) ∉ move_history g →
     entry (qtable1 (game_over_block g)) f m = entry (qtable1 g) f m ∧
     ∀ t2, qtable2 g = Some t2 →
       ∃ t2', qtable2 (game_over_block g) = Some t2' ∧
              entry t2' f m = entry t2 f m).
Proof.
  intros Hover reward n.
  destruct (game_over_block_tables g Hover) as [-> ->]. fold reward.
  split; [apply get_q_replay|]. split.
  - intros t2 ->. eexists. split; [done|]. apply get_q_replay.
  - intros Hnotin. split; [by apply entry_replay_notin|].
    intros t2 ->. eexists. split; [done|]. by apply entry_replay_notin.
Qed.

Lemma terminal_credit_per_pair_witness :
  let g := TreeGame.self_play_after_one in
  let reward := terminal_reward (goal_test (g_board g)) in
  is_game_over (g_board g) = true ∧
  get_q (qtable1 (game_over_block g)) "mate" "a"
  = Nat.iter (occurrences ("mate", "a") (move_history g))
             (update_step LEARNING_RATE reward) (get_q (qtable1 g) "mate" "a").
Proof.
  intros g reward.
  assert (Hover : is_game_over (g_board g) = true) by (vm_compute; reflexivity).
  split; [exact Hover|].
  destruct (terminal_credit_per_pair g "mate" "a" Hover) as [Hq _]. exact Hq.
Defined.

Lemma terminal_credit_order_irrelevant_witness :
  let g := TreeGame.finished_game [("root", "a"); ("quiet", "b")] in
  let g' := TreeGame.finished_game [("quiet", "b"); ("root", "a")] in
  Permutation (move_history g) (move_history g') ∧
  qtable1 (game_over_block g') = qtable1 (game_over_block g) ∧
  qtable2 (game_over_block g') = qtable2 (game_over_block g).
Proof.
  intros g g'.
  assert (Hperm : Permutation (move_history g) (move_history g'))
    by apply perm_swap.
  split; [exact Hperm|].
  exact (terminal_credit_order_irrelevant g g' eq_refl eq_refl eq_refl Hperm).
Defined.

(** ** Evaluator and outcome *)

(** X6. Exchanging the colours negates the evaluation: for a position and
    its colour-mirrored position (other side to move, every piece of the
    other colour on the vertically flipped square) the two scores are
    opposite, terminal positions included. *)
Theorem evaluate_board_mirrored {Board Move : Type} `{RulesEngine Board Move}
    (b b' : Board) :
  mirrored b b' → evaluate_board b' = - evaluate_board b.
Proof.
  intros [Hturn Hmate Hstale Hinsuff Hpieces Hat].
  unfold evaluate_board. rewrite Hmate, Hstale, Hinsuff, Hturn.
  destruct (is_checkmate b); [by destruct (turn b)|].
  destruct (is_stalemate b || is_insufficient_material b); [done|].
  cbn [foldl piece_values center_squares].
  rewrite !Hpieces. cbn [negb WHITE BLACK].
  assert (H1 : piece_at b' D4 = flip_piece <$> piece_at b D5)
    by (apply (Hat D5); unfold D5; lia).
  assert (H2 : piece_at b' D5 = flip_piece <$> piece_at b D4)
    by (apply (Hat D4); unfold D4; lia).
  assert (H3 : piece_at b' E4 = flip_piece <$> piece_at b E5)
    by (apply (Hat E5); unfold E5; lia).
  assert (H4 : piece_at b' E5 = flip_piece <$> piece_at b E4)
    by (apply (Hat E4); unfold E4; lia).
  rewrite H1, H2, H3, H4.
  destruct (piece_at b D4) as [[? []]|], (piece_at b D5) as [[? []]|],
           (piece_at b E4) as [[? []]|], (piece_at b E5) as [[? []]|];
    unfold WHITE, BLACK; cbn;
    rewrite ?(bool_decide_eq_true_2 (true = true)) by done;
    rewrite ?(bool_decide_eq_false_2 (false = true)) by done; lia.
Qed.

(** X7. [goal_test] and [evaluate_board] agree on finished games: a Win
    is scored 10000, a Loss -10000 and a Draw 0; the answer is Ongoing
    exactly when the position is neither a checkmate nor a stalemate nor
    short of material. *)
Theorem goal_test_agrees_with_evaluation {Board Move : Type}
    `{RulesEngine Board Move} (b : Board) :
  (goal_test b = Win → evaluate_board b = 10000) ∧
  (goal_test b = Loss → evaluate_board b = -10000) ∧
  (goal_test b = Draw → evaluate_board b = 0) ∧
  (goal_test b = Ongoing ↔
     is_checkmate b = false ∧ is_stalemate b = false ∧
     is_insufficient_material b = false).
Proof.
  unfold goal_test, evaluate_board.
  destruct (is_checkmate b), (turn b), (is_stalemate b),
           (is_insufficient_material b); unfold WHITE;
    rewrite ?(bool_decide_eq_true_2 (true = true)) by done;
    rewrite ?(bool_decide_eq_false_2 (false = true)) by done;
    cbn; intuition congruence.
Qed.

Lemma goal_test_agrees_with_evaluation_witness :
  let b := TreeGame.start (TreeGame.mated "mate" BLACK) in
  goal_test b = Win ∧ evaluate_board b = 10000.
Proof.
  intros b. assert (Hwin : goal_test b = Win) by reflexivity.
  split; [exact Hwin|].
  destruct (goal_test_agrees_with_evaluation b) as [Hw _]. exact (Hw Hwin).
Defined.

(** ** The move orderer without preferences *)

Lemma sorted_reverse_equal_keys {A} (key : A → Q) (l : list A) :
  (∀ x y, x ∈ l → y ∈ l → (key x == key y)%Q) → sorted_reverse key l = l.
Proof.
  induction l as [|x l IH]; intros Heq; [done|].
  cbn [sorted_reverse foldr]. fold (sorted_reverse key l).
  rewrite IH by (intros; apply Heq; by right).
  destruct l as [|y l]; [done|]. cbn [insert_desc].
  assert (Hxy : Qltb (key x) (key y) = false).
  { apply Qltb_false. rewrite (Heq x y); [apply Qle_refl|by left|].
    right. by left. }
  by rewrite Hxy.
Qed.

(** X8. When the moves of a position all have the same preference, in
    particular when the table has no entry for the position,
    [get_ordered_moves] returns the legal moves in the engine's own
    order. *)
Theorem get_ordered_moves_without_preference {Board Move : Type}
    `{RulesEngine Board Move} (ai : ChessAI) (b : Board) :
  ((∀ m, m ∈ legal_moves b → entry (qtable ai) (fen b) (uci m) = None) →
   get_ordered_moves ai b = legal_moves b) ∧
  ((∀ m m', m ∈ legal_moves b → m' ∈ legal_moves b →
      (get_q (qtable ai) (fen b) (uci m)
       == get_q (qtable ai) (fen b) (uci m'))%Q) →
   get_ordered_moves ai b = legal_moves b).
Proof.
  assert (Hsame : (∀ m m', m ∈ legal_moves b → m' ∈ legal_moves b →
      (get_q (qtable ai) (fen b) (uci m)
       == get_q (qtable ai) (fen b) (uci m'))%Q) →
   get_ordered_moves ai b = legal_moves b).
  { intros Heq. unfold get_ordered_moves. by apply sorted_reverse_equal_keys. }
  split; [|done].
  intros Hnone. apply Hsame. intros m m' Hm Hm'.
  by rewrite !get_q_entry, (Hnone m), (Hnone m').
Qed.

Lemma get_ordered_moves_without_preference_witness :
  let ai := make_ai (TreeGame.empty_table "q1") in
  let b := TreeGame.start TreeGame.two_replies in
  (∀ m, m ∈ legal_moves b → entry (qtable ai) (fen b) (uci m) = None) ∧
  get_ordered_moves ai b = legal_moves b.
Proof.
  intros ai b.
  assert (Hnone : ∀ m, m ∈ legal_moves b →
                       entry (qtable ai) (fen b) (uci m) = None) by done.
  split; [exact Hnone|].
  destruct (get_ordered_moves_without_preference ai b) as [Hid _].
  exact (Hid Hnone).
Defined.

Lemma evaluate_board_mirrored_witness :
  let b := TreeGame.start (TreeGame.quiet "x" WHITE 3 1 []) in
  let b' := TreeGame.start (TreeGame.quiet "y" BLACK 1 3 []) in
  mirrored b b' ∧ evaluate_board b = 200 ∧ evaluate_board b' = - evaluate_board b.
Proof.
  intros b b'.
  assert (Hm : mirrored b b').
  { constructor; try reflexivity. intros [] []; reflexivity. }
  split; [exact Hm|]. split; [reflexivity|].
  exact (evaluate_board_mirrored b b' Hm).
Defined.

(** ** More on alpha-beta *)

(** X9. For any window with alpha < beta, the answer of [alpha_beta] is
    fail-soft: a value strictly inside the window is the exact minimax
    value; a value at or below alpha is an upper bound of it; a value at
    or above beta is a lower bound of it. *)
Theorem alpha_beta_fail_soft {Board Move : Type} `{RulesEngine Board Move}
    (ai : ChessAI) (depth : nat) (alpha beta : EZ) (maximizing : bool)
    (w : World Board Move) :
  pop_undoes_push →
  elt alpha beta = true →
  let r := (alpha_beta ai depth alpha beta maximizing w).1 in
  let v := minimax depth maximizing (board w) in
  (elt alpha r = true → elt r beta = true → r = v) ∧
  (ele r alpha = true → ele v r = true) ∧
  (ele beta r = true → ele r v = true).
Proof.
  intros Hpp Hlt r v. unfold r.
  destruct (alpha_beta_run Hpp ai depth alpha beta maximizing w)
    as (t & _ & ->).
  cbn [fst].
  destruct (search_value_within ai depth alpha beta maximizing (board w) Hlt)
    as (Hlow & Hhigh & Hin).
  done.
Qed.

Lemma alpha_beta_fail_soft_witness :
  let ai := make_ai (TreeGame.empty_table "q1") in
  let w := mkWorld (TreeGame.tree_push (TreeGame.start TreeGame.two_replies) 1) [] in
  let r := (alpha_beta ai 1 (Fin 500) PosInf false w).1 in
  @pop_undoes_push TreeGame.TreeBoard nat _ ∧
  elt (Fin 500) PosInf = true ∧
  r = Fin 300 ∧ minimax 1 false (board w) = Fin 100 ∧
  (ele r (Fin 500) = true → ele (minimax 1 false (board w)) r = true).
Proof.
  intros ai w r.
  assert (Hlt : elt (Fin 500) PosInf = true) by reflexivity.
  split; [exact tree_pop_push|]. split; [exact Hlt|].
  split; [reflexivity|]. split; [reflexivity|].
  destruct (alpha_beta_fail_soft ai 1 (Fin 500) PosInf false w
              tree_pop_push Hlt) as (_ & Hlow & _).
  exact Hlow.
Defined.

(** X10. [alpha_beta] never answers with an infinity: its value is an
    integer score, whatever the window. *)
Theorem alpha_beta_finite {Board Move : Type} `{RulesEngine Board Move}
    (ai : ChessAI) (depth : nat) (alpha beta : EZ) (maximizing : bool)
    (w : World Board Move) :
  pop_undoes_push →
  ∃ z : Z, (alpha_beta ai depth alpha beta maximizing w).1 = Fin z.
Proof.
  intros Hpp.
  destruct (alpha_beta_run Hpp ai depth alpha beta maximizing w)
    as (t & _ & ->).
  apply search_value_Fin.
Qed.

Lemma alpha_beta_finite_witness :
  @pop_undoes_push TreeGame.TreeBoard nat _ ∧
  ∃ z : Z,
    (alpha_beta (make_ai (TreeGame.empty_table "q1")) 3 PosInf NegInf true
                (mkWorld (TreeGame.start TreeGame.two_replies) [])).1 = Fin z.
Proof.
  split; [exact tree_pop_push|].
  apply alpha_beta_finite. exact tree_pop_push.
Defined.

(** X11. The Q-table only orders the moves: with the full window, two
    AIs with different tables compute the same value for the same
    position and depth. *)
Theorem alpha_beta_value_ignores_table {Board Move : Type}
    `{RulesEngine Board Move} (ai ai' : ChessAI) (depth : nat)
    (maximizing : bool) (w : World Board Move) :
  pop_undoes_push →
  (alpha_beta ai depth NegInf PosInf maximizing w).1
  = (alpha_beta ai' depth NegInf PosInf maximizing w).1.
Proof.
  intros Hpp.
  destruct (alpha_beta_run Hpp ai depth NegInf PosInf maximizing w)
    as (t & _ & ->).
  destruct (alpha_beta_run Hpp ai' depth NegInf PosInf maximizing w)
    as (t' & _ & ->).
  cbn [fst].
  rewrite (within_full _ _ (search_value_within ai depth NegInf PosInf
                              maximizing (board w) eq_refl)).
  by rewrite (within_full _ _ (search_value_within ai' depth NegInf PosInf
                                 maximizing (board w) eq_refl)).
Qed.

Lemma alpha_beta_value_ignores_table_witness :
  let t := update (TreeGame.empty_table "q1") "root" "b" 1 LEARNING_RATE in
  let w := mkWorld (TreeGame.start TreeGame.two_replies) [] in
  @pop_undoes_push TreeGame.TreeBoard nat _ ∧
  get_ordered_moves (make_ai t) (board w)
  ≠ get_ordered_moves (make_ai (TreeGame.empty_table "q1")) (board w) ∧
  (alpha_beta (make_ai t) 2 NegInf PosInf true w).1
  = (alpha_beta (make_ai (TreeGame.empty_table "q1")) 2 NegInf PosInf true w).1.
Proof.
  intros t w. split; [exact tree_pop_push|]. split; [vm_compute; discriminate|].
  apply alpha_beta_value_ignores_table. exact tree_pop_push.
Defined.

(** ** More on the driver *)

Lemma foldl_emax_lt (l : list EZ) (v : EZ) :
  (∀ x, x ∈ l → elt x v = true) →
  ∀ acc, elt acc v = true → elt (foldl emax acc l) v = true.
Proof.
  induction l as [|y l IH]; intros Hall acc Hacc; [done|].
  cbn [foldl]. apply IH.
  - intros x Hx. apply Hall. by right.
  - assert (Hy : elt y v = true) by (apply Hall; by left).
    clear -Hacc Hy. ez.
Qed.

Lemma foldl_emax_greatest (l : list EZ) (x : EZ) :
  (∀ y, y ∈ l → ele y x = true) →
  ∀ acc, ele acc x = true → acc = x ∨ x ∈ l → foldl emax acc l = x.
Proof.
  induction l as [|y l IH]; intros Hall acc Hacc Hin.
  - destruct Hin as [|Hin]; [done|]. by apply elem_of_nil in Hin.
  - cbn [foldl].
    assert (Hy : ele y x = true) by (apply Hall; by left).
    apply IH.
    + intros z Hz. apply Hall. by right.
    + clear -Hacc Hy. ez.
    + destruct Hin as [->|Hin].
      * left. clear -Hy. ez.
      * apply elem_of_cons in Hin as [->|Hin]; [|by right].
        left. clear -Hacc. ez.
Qed.

(** X12. When at least one depth completes, the move the driver returns
    is a best root move for the deepest completed depth k by exact
    minimax: the position it leads to has the greatest depth-(k-1) minimax
    value (for the minimizing reply) among all legal moves, and it is the
    first such move in the root ordering.  The narrowed windows change
    the recorded values of other moves, never the choice. *)
Theorem driver_move_is_minimax_best {Board Move : Type}
    `{RulesEngine Board Move} (ai : ChessAI) (times : nat → Q)
    (w : World Board Move) :
  pop_undoes_push →
  legal_moves (board w) ≠ [] →
  (∀ m, m ∈ legal_moves (board w) → move_bool m = true) →
  let moves := get_ordered_moves ai (board w) in
  let k := completed ai times (times O) (seq 1 (max_depth ai)) in
  let value (m : Move) := minimax (k - 1) false (push (board w) m) in
  (0 < k)%nat →
  ∃ (i : nat) (m : Move),
    (iterative_deepening ai times w).1.1 = Some m ∧
    moves !! i = Some m ∧
    m ∈ legal_moves (board w) ∧
    value m = foldl emax NegInf (map value (legal_moves (board w))) ∧
    (∀ m', m' ∈ legal_moves (board w) → ele (value m') (value m) = true) ∧
    (∀ j m', (j < i)%nat → moves !! j = Some m' →
             elt (value m') (value m) = true).
Proof.
  intros Hpp Hne Htruthy moves k value Hk.
  destruct (iterative_deepening_run Hpp ai times w) as (t & _ & ->).
  cbn [fst snd].
  assert (Hord : moves ≠ []).
  { unfold moves. by rewrite get_ordered_moves_nil. }
  rewrite (driver_result_eq ai times (board w) Hord Htruthy).
  fold moves k. cbn [fst].
  assert (Hsome : ∀ (n : nat) (x : option Move),
             (0 < n)%nat → match n with O => None | S _ => x end = x)
    by (intros [|n] x Hn; [lia|done]).
  rewrite (Hsome k _ Hk). clear Hsome.
  set (values := root_values ai k (board w) moves NegInf).
  pose proof (root_values_length ai k (board w) moves NegInf) as Hlen.
  pose proof (root_values_Fin ai k (board w) moves NegInf) as Hfin.
  fold values in Hlen, Hfin.
  destruct (pick_first moves values None Hord Hlen Hfin)
    as (i & m & v & Hm & Hv & Heq & Hmax & Hfirst).
  (* every recorded value bounds the exact one from above *)
  assert (Hupper : ∀ j mj vj, moves !! j = Some mj → values !! j = Some vj →
                              ele (value mj) vj = true
                              ∧ (elt (foldl emax NegInf (take j values)) vj = true
                                 → vj = value mj)).
  { intros j mj vj Hmj Hvj.
    pose proof (root_values_lookup ai k (board w) moves NegInf j mj Hmj) as Hl.
    fold values in Hl. rewrite Hvj in Hl. injection Hl as ->.
    set (a := foldl emax NegInf (take j values)).
    assert (Ha : elt a PosInf = true).
    { assert (a ≠ PosInf) as Hn; [|clear -Hn; destruct a; done].
      apply foldl_emax_Fin; [|done]. intros x Hx. apply Hfin.
      apply elem_of_take in Hx as (j' & Hj' & _).
      by eapply list_elem_of_lookup_2. }
    destruct (search_value_within ai (k - 1) a PosInf false
                (push (board w) mj) Ha) as (Hlow & _ & Hin).
    fold (value mj) in Hlow, Hin.
    destruct (search_value_Fin ai (k - 1) a PosInf false (push (board w) mj))
      as [z Hz].
    rewrite Hz in *. split.
    - destruct (ele (Fin z) a) eqn:Hza; [by apply Hlow|].
      rewrite <- Hin; [apply ele_refl| |done]. unfold elt. by rewrite Hza.
    - intros Hgt. by apply Hin. }
  assert (Hexact : v = value m).
  { apply (Hupper i m v Hm Hv). apply foldl_emax_lt.
    - intros x Hx. apply elem_of_take in Hx as (j & Hj & Hlt).
      by eapply Hfirst.
    - destruct (Hfin v) as [z ->]; [by eapply list_elem_of_lookup_2|]. done. }
  assert (Hall : ∀ j mj, moves !! j = Some mj →
                         ele (value mj) (value m) = true
                         ∧ ((j < i)%nat → elt (value mj) (value m) = true)).
  { intros j mj Hmj.
    destruct (lookup_lt_is_Some_2 values j) as [vj Hvj].
    { rewrite Hlen. by eapply lookup_lt_Some. }
    destruct (Hupper j mj vj Hmj Hvj) as [Hup _].
    rewrite <- Hexact. split.
    - eapply ele_trans; [exact Hup|]. by eapply Hmax.
    - intros Hlt. specialize (Hfirst j vj Hlt Hvj).
      clear -Hup Hfirst. generalize dependent (value mj). ez. }
  assert (Hlegal : ∀ m', m' ∈ legal_moves (board w) →
                         ∃ j, moves !! j = Some m').
  { intros m' Hm'. apply list_elem_of_lookup.
    unfold moves. by rewrite (get_ordered_moves_Permutation ai (board w)). }
  assert (Hmlegal : m ∈ legal_moves (board w)).
  { rewrite <- (get_ordered_moves_Permutation ai (board w)).
    by eapply list_elem_of_lookup_2. }
  exists i, m. split; [unfold best_at; fold values; by rewrite Heq|].
  split; [done|]. split; [done|]. split; [|split].
  - symmetry. apply foldl_emax_greatest.
    + intros y Hy. apply list_elem_of_fmap in Hy as (m' & -> & Hm').
      destruct (Hlegal m' Hm') as [j Hj]. by apply (Hall j m').
    + done.
    + right. apply list_elem_of_fmap. by exists m.
  - intros m' Hm'. destruct (Hlegal m' Hm') as [j Hj]. by apply (Hall j m').
  - intros j m' Hlt Hj. by apply (Hall j m').
Qed.

Lemma driver_move_is_minimax_best_witness :
  let ai := mkChessAI (TreeGame.empty_table "q1") 2 1 in
  let w := mkWorld (TreeGame.start TreeGame.two_replies) [] in
  let value (m : nat) := minimax 1 false (push (board w) m) in
  @pop_undoes_push TreeGame.TreeBoard nat _ ∧
  legal_moves (board w) ≠ [] ∧
  (∀ m, m ∈ legal_moves (board w) → move_bool m = true) ∧
  (0 < completed ai TreeGame.frozen_clock 0 (seq 1 (max_depth ai)))%nat ∧
  ∃ (i : nat) (m : nat),
    (iterative_deepening ai TreeGame.frozen_clock w).1.1 = Some m ∧
    value m = foldl emax NegInf (map value (legal_moves (board w))).
Proof.
  intros ai w value.
  assert (H1 : legal_moves (board w) ≠ []) by (vm_compute; discriminate).
  assert (H2 : ∀ m, m ∈ legal_moves (board w) → move_bool m = true) by done.
  assert (H3 : (0 < completed ai TreeGame.frozen_clock 0
                      (seq 1 (max_depth ai)))%nat) by (vm_compute; lia).
  split; [exact tree_pop_push|]. split; [exact H1|]. split; [exact H2|].
  split; [exact H3|].
  destruct (driver_move_is_minimax_best ai TreeGame.frozen_clock w
              tree_pop_push H1 H2 H3) as (i & m & Hm & _ & _ & Hbest & _).
  exists i, m. split; [exact Hm|exact Hbest].
Defined.

(** X13. With a legal move but no depth to search (a maximum depth of 0)
    or with the time limit already exceeded at the first check, the
    driver returns no move and an empty score table (not None, as it does
    without legal moves), and the coordinator returns no move and leaves
    the Q-table alone; the board is not touched and no search is made. *)
Theorem driver_without_completed_depth {Board Move : Type}
    `{RulesEngine Board Move} (ai : ChessAI) (times : nat → Q)
    (w : World Board Move) :
  legal_moves (board w) ≠ [] →
  max_depth ai = O ∨ Qltb (time_limit ai) (times 1%nat - times O) = true →
  iterative_deepening ai times w = ((None, Some ∅), w) ∧
  compute_best_move ai times w = ((None, Some ∅, qtable ai), w).
Proof.
  intros Hne Hstop.
  assert (Hdrive : iterative_deepening ai times w = ((None, Some ∅), w)).
  { unfold iterative_deepening, mbind, M_bind, get_board.
    destruct (get_ordered_moves ai (board w)) as [|m0 ms] eqn:Hord.
    { by apply get_ordered_moves_nil in Hord. }
    destruct (max_depth ai) as [|n]; [done|].
    destruct Hstop as [|Hstop]; [done|].
    cbn [seq depth_loop]. by rewrite Hstop. }
  split; [done|].
  unfold compute_best_move, mbind, M_bind, get_board. by rewrite Hdrive.
Qed.

Lemma driver_without_completed_depth_witness :
  let ai := mkChessAI (TreeGame.empty_table "q1") 4 1 in
  let late : nat → Q := λ n, inject_Z (2 * Z.of_nat n) in
  let w := mkWorld (TreeGame.start TreeGame.two_replies) [] in
  legal_moves (board w) ≠ [] ∧
  Qltb (time_limit ai) (late 1%nat - late O) = true ∧
  iterative_deepening ai late w = ((None, Some ∅), w).
Proof.
  intros ai late w.
  assert (H1 : legal_moves (board w) ≠ []) by (vm_compute; discriminate).
  assert (H2 : Qltb (time_limit ai) (late 1%nat - late O) = true) by reflexivity.
  split; [exact H1|]. split; [exact H2|].
  destruct (driver_without_completed_depth ai late w H1 (or_intror H2))
    as [Hdrive _].
  exact Hdrive.
Defined.

Lemma fill_row_is_Some {Board Move : Type} `{RulesEngine Board Move}
    (moves : list Move) :
  NoDup (uci <$> moves) →
  ∀ values (row : gmap string EZ) key,
    length values = length moves →
    is_Some (fill_row row moves values !! key)
    ↔ key ∈ uci <$> moves ∨ is_Some (row !! key).
Proof.
  intros Hnd values row key Hlen.
  destruct (decide (key ∈ uci <$> moves)) as [Hin|Hnotin].
  - split; [by left|]. intros _.
    apply list_elem_of_fmap in Hin as (m & -> & Hm).
    apply list_elem_of_lookup in Hm as [i Hi].
    destruct (lookup_lt_is_Some_2 values i) as [v Hv].
    { rewrite Hlen. by eapply lookup_lt_Some. }
    rewrite (fill_row_lookup moves Hnd values row i m v Hi Hv). eauto.
  - rewrite fill_row_notin by done. split; [by right|]. by intros [|].
Qed.

(** X14. Every row of the score table has exactly one entry for each
    legal root move and no other entry. *)
Theorem score_table_rows_complete {Board Move : Type}
    `{RulesEngine Board Move} (ai : ChessAI) (times : nat → Q)
    (w : World Board Move) :
  pop_undoes_push →
  (∀ m, m ∈ legal_moves (board w) → move_bool m = true) →
  NoDup (uci <$> legal_moves (board w)) →
  ∀ (tree : SearchTree) (d : nat) (row : gmap string EZ),
    (iterative_deepening ai times w).1.2 = Some tree →
    tree !! d = Some row →
    (∀ key, is_Some (row !! key) ↔ key ∈ uci <$> legal_moves (board w)) ∧
    size row = length (legal_moves (board w)).
Proof.
  intros Hpp Htruthy Hnd tree d row.
  destruct (iterative_deepening_run Hpp ai times w) as (t & _ & ->).
  cbn [fst snd].
  set (moves := get_ordered_moves ai (board w)).
  destruct (decide (moves = [])) as [Hnil|Hord].
  { unfold driver_result. fold moves. by rewrite Hnil. }
  rewrite (driver_result_eq ai times (board w) Hord Htruthy).
  fold moves. cbn [snd].
  set (k := completed ai times (times O) (seq 1 (max_depth ai))).
  intros [= <-] Hrow.
  assert (Hd : d ∈ seq 1 k).
  { destruct (decide (d ∈ seq 1 k)) as [|Hno]; [done|].
    by rewrite record_rows_notin in Hrow. }
  rewrite record_rows_in in Hrow; [|apply NoDup_seq|done].
  injection Hrow as <-.
  assert (Hperm : Permutation moves (legal_moves (board w)))
    by apply get_ordered_moves_Permutation.
  assert (Hnd' : NoDup (uci <$> moves)) by (by rewrite Hperm).
  pose proof (root_values_length ai d (board w) moves NegInf) as Hlen.
  assert (Hkeys : ∀ key,
            is_Some (fill_row ∅ moves (root_values ai d (board w) moves NegInf)
                     !! key)
            ↔ key ∈ uci <$> moves).
  { intros key. rewrite (fill_row_is_Some moves Hnd' _ ∅ key Hlen).
    rewrite lookup_empty. split; [intros [|[]]|]; [done..|by left]. }
  split.
  - intros key. rewrite Hkeys. by rewrite Hperm.
  - rewrite <- size_dom.
    assert (Hdom : dom (fill_row ∅ moves
                          (root_values ai d (board w) moves NegInf))
                   = list_to_set (uci <$> moves)).
    { apply set_eq. intros key.
      by rewrite elem_of_dom, Hkeys, elem_of_list_to_set. }
    rewrite Hdom, size_list_to_set by done.
    by rewrite length_fmap, Hperm.
Qed.

Lemma score_table_rows_complete_witness :
  let ai := mkChessAI (TreeGame.empty_table "q1") 2 1 in
  let w := mkWorld (TreeGame.start TreeGame.two_replies) [] in
  @pop_undoes_push TreeGame.TreeBoard nat _ ∧
  (∀ m, m ∈ legal_moves (board w) → move_bool m = true) ∧
  NoDup (uci <$> legal_moves (board w)) ∧
  ∀ (tree : SearchTree) (row : gmap string EZ),
    (iterative_deepening ai TreeGame.frozen_clock w).1.2 = Some tree →
    tree !! 2%nat = Some row →
    size row = length (legal_moves (board w)).
Proof.
  intros ai w.
  assert (H2 : ∀ m, m ∈ legal_moves (board w) → move_bool m = true) by done.
  assert (H3 : NoDup (uci <$> legal_moves (board w))).
  { apply (bool_decide_unpack _). vm_compute. exact I. }
  split; [exact tree_pop_push|]. split; [exact H2|]. split; [exact H3|].
  intros tree row Htree Hrow.
  destruct (score_table_rows_complete ai TreeGame.frozen_clock w
              tree_pop_push H2 H3 tree 2%nat row Htree Hrow) as [_ Hsize].
  exact Hsize.
Defined.

(** ** The coordinator *)

(** X15. [compute_best_move] returns the move and the score table of the
    driver and changes at most one entry of the Q-table, the one for the
    position it was called on and the returned move; that entry takes one
    update step towards the shaping reward, the hundredth of the change of
    the evaluation made by the move. *)
Theorem compute_best_move_learns_one_entry {Board Move : Type}
    `{RulesEngine Board Move} (ai : ChessAI) (times : nat → Q)
    (w : World Board Move) :
  pop_undoes_push →
  let result := (compute_best_move ai times w).1 in
  let best_move := result.1.1 in
  let table := result.2 in
  let b := board w in
  (best_move, result.1.2) = (iterative_deepening ai times w).1 ∧
  (∀ f m, (∀ mv, best_move = Some mv → (f, m) ≠ (fen b, uci mv)) →
          entry table f m = entry (qtable ai) f m) ∧
  (∀ mv, best_move = Some mv → move_bool mv = true →
     let reward :=
       (inject_Z (evaluate_board (push b mv) - evaluate_board b) / 100)%Q in
     entry table (fen b) (uci mv)
     = Some (update_step LEARNING_RATE reward
                         (get_q (qtable ai) (fen b) (uci mv)))).
Proof.
  intros Hpp result best_move table b. unfold best_move, table, result.
  destruct (compute_best_move_run Hpp ai times w) as (t & _ & ->).
  destruct (iterative_deepening_run Hpp ai times w) as (t' & _ & ->).
  cbn [fst snd]. unfold decision_result. fold b.
  destruct (driver_result ai times b) as [[mv|] tree]; cbn [fst snd].
  - destruct (move_bool mv) eqn:Htruthy; cbn [fst snd].
    + split; [done|]. split.
      * intros f m Hne. apply entry_update_ne. by apply Hne.
      * intros mv' [= <-] _. by rewrite entry_update_eq.
    + split; [done|]. split; [done|]. intros mv' [= <-]. congruence.
  - split; [done|]. split; [done|]. done.
Qed.

Lemma compute_best_move_learns_one_entry_witness :
  let ai := mkChessAI (TreeGame.empty_table "q1") 2 1 in
  let w := mkWorld (TreeGame.start TreeGame.mate_in_one) [] in
  let result := (compute_best_move ai TreeGame.frozen_clock w).1 in
  @pop_undoes_push TreeGame.TreeBoard nat _ ∧
  result.1.1 = Some 0%nat ∧
  entry result.2 "root" "b" = entry (qtable ai) "root" "b".
Proof.
  intros ai w result.
  assert (Hmove : result.1.1 = Some 0%nat) by (vm_compute; reflexivity).
  split; [exact tree_pop_push|]. split; [exact Hmove|].
  destruct (compute_best_move_learns_one_entry ai TreeGame.frozen_clock w
              tree_pop_push) as (_ & Hframe & _).
  apply Hframe. fold result. intros mv Hmv. rewrite Hmove in Hmv.
  injection Hmv as <-. vm_compute. discriminate.
Defined.

(** ** The game loop: invariants *)

Section GameInvariants.
Context {Board Move : Type} `{RulesEngine Board Move} `{EqDecision Move}.

Lemma ai_move_fields (times : nat → Q) (g : Game Board) :
  self_play (ai_move times g) = self_play g ∧
  player_side (ai_move times g) = player_side g ∧
  (is_Some (qtable2 (ai_move times g)) ↔ is_Some (qtable2 g)) ∧
  (move_count g = Z.of_nat (length (move_history g)) →
   move_count (ai_move times g)
   = Z.of_nat (length (move_history (ai_move times g)))).
Proof.
  unfold ai_move.
  destruct (is_game_over (g_board g)); [done|].
  destruct (self_play g || negb (self_play g) && not_player_turn g); [|done].
  destruct (negb (bool_decide (turn (g_board g) = WHITE)) && self_play g)
    eqn:Hsecond.
  - destruct (qtable2 g) as [t2|] eqn:Ht2; [|by rewrite Ht2].
    destruct (compute_best_move (make_ai t2) times _) as [[[mv tree] t'] w].
    destruct mv as [mv|]; [destruct (move_bool mv)|]; cbn;
      repeat split; try done;
      try (intros Hc; rewrite ?length_app; cbn; lia);
      try (intros _; eauto).
  - destruct (compute_best_move (make_ai (qtable1 g)) times _)
      as [[[mv tree] t'] w].
    destruct mv as [mv|]; [destruct (move_bool mv)|]; cbn;
      repeat split; try done;
      try (intros Hc; rewrite ?length_app; cbn; lia).
Qed.

Lemma hint_key_fields (times : nat → Q) (g : Game Board) :
  self_play (hint_key times g).1 = self_play g ∧
  player_side (hint_key times g).1 = player_side g ∧
  qtable2 (hint_key times g).1 = qtable2 g ∧
  move_history (hint_key times g).1 = move_history g ∧
  move_count (hint_key times g).1 = move_count g.
Proof.
  unfold hint_key.
  destruct (negb (self_play g) && negb (not_player_turn g)); [|done].
  by destruct (compute_best_move _ _ _) as [[[mv tree] t'] w].
Qed.

End GameInvariants.

(** X16. In every game the loop can reach from its initial state, the
    move counter is the length of the move history, the mode chosen in
    the menu is unchanged, and the second Q-table exists exactly in
    self-play: against the human there never is a second table, in
    self-play the AI for Black always has one. *)
Theorem reachable_game_invariants {Board Move : Type}
    `{RulesEngine Board Move} `{EqDecision Move}
    (mode : bool) (b0 : Board) (t1 t2 : QTable) (g : Game Board) :
  reachable (initial_game mode b0 t1 t2) g →
  move_count g = Z.of_nat (length (move_history g)) ∧
  self_play g = mode ∧
  player_side g = (if mode then None else Some WHITE) ∧
  (is_Some (qtable2 g) ↔ mode = true).
Proof.
  induction 1 as [|move g Hg IH Hself Hturn|times g Hg IH|times g Hg IH|g Hg IH].
  - destruct mode; cbn; repeat split; try done; try (by intros []); eauto.
  - destruct IH as (Hc & Hm & Hp & Hq). unfold human_move.
    case_bool_decide; [|done]. cbn. repeat split; try done; try apply Hq.
    rewrite length_app. cbn. lia.
  - destruct IH as (Hc & Hm & Hp & Hq).
    destruct (hint_key_fields times g) as (-> & -> & -> & -> & ->). done.
  - destruct IH as (Hc & Hm & Hp & Hq).
    destruct (ai_move_fields times g) as (-> & -> & Hq' & Hc').
    repeat split; try done; [by apply Hc'|..].
    + intros Hs. apply Hq. by apply Hq'.
    + intros Hs. apply Hq'. by apply Hq.
  - destruct IH as (Hc & Hm & Hp & Hq). unfold game_over_block.
    destruct (is_game_over (g_board g)); [|done].
    rewrite replay_both. cbn. repeat split; try done.
    + intros Hs. apply Hq. destruct (qtable2 g); [eauto|]. by destruct Hs.
    + intros Hs. apply Hq in Hs as [t Ht]. rewrite Ht. cbn. eauto.
Qed.

Lemma reachable_game_invariants_witness :
  let g0 := initial_game true (TreeGame.start TreeGame.mate_in_one)
              (TreeGame.empty_table "q1.pkl") (TreeGame.empty_table "q2.pkl") in
  let g := game_over_block (ai_move TreeGame.frozen_clock g0) in
  reachable g0 g ∧
  move_count g = Z.of_nat (length (move_history g)) ∧
  is_Some (qtable2 g).
Proof.
  intros g0 g.
  assert (Hreach : reachable g0 g).
  { apply reachable_over, reachable_ai, reachable_start. }
  split; [exact Hreach|].
  destruct (reachable_game_invariants true _ _ _ g Hreach)
    as (Hc & _ & _ & Hq).
  split; [exact Hc|]. apply Hq. reflexivity.
Defined.

(** X17. A hint is not free of effects: on the human's turn the key h
    leaves the board, the move history, the counter and the second table
    as they are, returns the move the first AI would choose, and applies
    that AI's shaping update to the first table, creating or changing
    the entry of the hinted move and no other; in self-play or on the
    AI's turn the key does nothing. *)
Theorem hint_key_trains_first_table {Board Move : Type}
    `{RulesEngine Board Move} `{EqDecision Move}
    (times : nat → Q) (g : Game Board) :
  pop_undoes_push →
  let g' := (hint_key times g).1 in
  let b := g_board g in
  (self_play g = true ∨ not_player_turn g = true →
   hint_key times g = (g, None)) ∧
  (self_play g = false → not_player_turn g = false →
   ∃ hint tree,
     (hint_key times g).2 = Some (hint, tree) ∧
     (hint, tree)
     = (iterative_deepening (make_ai (qtable1 g)) times (mkWorld b [])).1 ∧
     g_board g' = b ∧
     move_history g' = move_history g ∧
     move_count g' = move_count g ∧
     qtable2 g' = qtable2 g ∧
     (∀ f m, (∀ mv, hint = Some mv → (f, m) ≠ (fen b, uci mv)) →
             entry (qtable1 g') f m = entry (qtable1 g) f m) ∧
     (∀ mv, hint = Some mv → move_bool mv = true →
            is_Some (entry (qtable1 g') (fen b) (uci mv)))).
Proof.
  intros Hpp g' b. unfold g', b, hint_key. clear g' b. split.
  - intros [-> | ->]; [done|]. by rewrite andb_false_r.
  - intros -> ->. cbn [negb andb].
    destruct (compute_best_move_run Hpp (make_ai (qtable1 g)) times
                (mkWorld (g_board g) [])) as (t & _ & ->).
    destruct (iterative_deepening_run Hpp (make_ai (qtable1 g)) times
                (mkWorld (g_board g) [])) as (t' & _ & ->).
    cbn [board fst snd]. unfold decision_result.
    destruct (driver_result (make_ai (qtable1 g)) times (g_board g))
      as [[mv|] tree].
    + destruct (move_bool mv) eqn:Htruthy; cbn.
      * exists (Some mv), tree. repeat split; try done.
        -- intros f m Hne. apply entry_update_ne. by apply Hne.
        -- intros mv' [= <-] _. rewrite entry_update_eq. eauto.
      * exists (Some mv), tree. repeat split; try done.
        intros mv' [= <-]. congruence.
    + cbn. exists None, tree. repeat split; done.
Qed.

Lemma hint_key_trains_first_table_witness :
  let g := initial_game false (TreeGame.start TreeGame.mate_in_one)
             (TreeGame.empty_table "q1.pkl") (TreeGame.empty_table "q2.pkl") in
  let g' := (hint_key TreeGame.frozen_clock g).1 in
  @pop_undoes_push TreeGame.TreeBoard nat _ ∧
  self_play g = false ∧ not_player_turn g = false ∧
  g_board g' = g_board g ∧ move_history g' = move_history g ∧
  entry (qtable1 g) "root" "a" = None ∧
  is_Some (entry (qtable1 g') "root" "a").
Proof.
  intros g g'.
  assert (H1 : self_play g = false) by reflexivity.
  assert (H2 : not_player_turn g = false) by reflexivity.
  split; [exact tree_pop_push|]. split; [exact H1|]. split; [exact H2|].
  destruct (hint_key_trains_first_table TreeGame.frozen_clock g tree_pop_push)
    as [_ Hhint].
  destruct (Hhint H1 H2)
    as (hint & tree & Hans & Hdrive & Hb & Hh & _ & _ & _ & Hnew).
  split; [exact Hb|]. split; [exact Hh|]. split; [reflexivity|].
  apply (Hnew 0%nat); [|reflexivity].
  assert (Hfst : hint
                 = (iterative_deepening (make_ai (qtable1 g))
                      TreeGame.frozen_clock (mkWorld (g_board g) [])).1.1)
    by (by rewrite <- Hdrive).
  rewrite Hfst. vm_compute. reflexivity.
Defined.

(** ** Squares and pixels *)

Lemma square_file_rank (sq : Z) :
  0 <= sq < 64 →
  0 <= square_file sq < 8 ∧ 0 <= square_rank sq < 8 ∧
  square (square_file sq) (square_rank sq) = sq.
Proof.
  intros Hsq. unfold square_file, square_rank, square.
  change 7 with (Z.ones 3). rewrite Z.land_ones by lia.
  rewrite Z.shiftr_div_pow2 by lia. change (2 ^ 3) with 8.
  pose proof (Z.mod_pos_bound sq 8 ltac:(lia)).
  pose proof (Z.div_mod sq 8 ltac:(lia)).
  assert (0 <= sq / 8 < 8) by (split; [apply Z.div_pos; lia|apply Z.div_lt_upper_bound; lia]).
  lia.
Qed.

Lemma clicked_square_hit (width height sq dx dy : Z) :
  0 <= sq < 64 → 0 <= dx < SQUARE_SIZE → 0 <= dy < SQUARE_SIZE →
  clicked_square width height ((piece_position width height sq).1 + dx)
                 ((piece_position width height sq).2 + dy)
  = Some sq.
Proof.
  unfold clicked_square, piece_position, board_offset, SQUARE_SIZE. cbn [fst snd].
  set (ox := (width - 80 * 8) / 2). set (oy := (height - 80 * 8) / 2).
  intros Hsq Hdx Hdy.
  destruct (square_file_rank sq Hsq) as (Hf & Hr & Heq).
  replace (ox + square_file sq * 80 + dx - ox)
    with (dx + square_file sq * 80) by lia.
  replace (oy + (7 - square_rank sq) * 80 + dy - oy)
    with (dy + (7 - square_rank sq) * 80) by lia.
  rewrite !Z.div_add by lia. rewrite !(Z.div_small _ 80) by lia.
  rewrite !Z.add_0_l.
  assert (Hin : (0 <=? square_file sq) && (square_file sq <? 8)
                && (0 <=? 7 - square_rank sq) && (7 - square_rank sq <? 8)
                = true).
  { rewrite !andb_true_iff, !Z.leb_le, !Z.ltb_lt. lia. }
  rewrite Hin. f_equal. rewrite <- Heq at 3. unfold square. lia.
Qed.





(** ** The AI block of the game loop *)

Lemma driver_result_legal {Board Move : Type} `{RulesEngine Board Move}
    (ai : ChessAI) (times : nat → Q) (b : Board) (mv : Move) :
  (∀ m, m ∈ legal_moves b → move_bool m = true) →
  (driver_result ai times b).1 = Some mv → mv ∈ legal_moves b.
Proof.
  intros Htruthy.
  destruct (decide (get_ordered_moves ai b = [])) as [Hnil|Hord].
  { unfold driver_result. by rewrite Hnil. }
  rewrite (driver_result_eq ai times b Hord Htruthy). cbn [fst].
  set (k := completed ai times (times O) (seq 1 (max_depth ai))).
  destruct k as [|k']; [done|]. unfold best_at.
  destruct (pick_first (get_ordered_moves ai b)
              (root_values ai (S k') b (get_ordered_moves ai b) NegInf) None
              Hord (root_values_length ai _ b _ NegInf)
              (root_values_Fin ai _ b _ NegInf))
    as (i & m & v & Hm & _ & -> & _).
  intros [= <-]. rewrite <- (get_ordered_moves_Permutation ai b).
  by eapply list_elem_of_lookup_2.
Qed.

(** X20. The AI block never plays an illegal move: it either leaves the
    board and the history as they are, or pushes one legal move of the
    position and records one history entry for it. *)
Theorem ai_move_plays_legal_move {Board Move : Type}
    `{RulesEngine Board Move} `{EqDecision Move}
    (times : nat → Q) (g : Game Board) :
  pop_undoes_push →
  (∀ m, m ∈ legal_moves (g_board g) → move_bool m = true) →
  (g_board (ai_move times g) = g_board g ∧
   move_history (ai_move times g) = move_history g)
  ∨ (∃ mv : Move,
       mv ∈ legal_moves (g_board g) ∧
       is_game_over (g_board g) = false ∧
       g_board (ai_move times g) = push (g_board g) mv ∧
       length (move_history (ai_move times g))
       = S (length (move_history g))).
Proof.
  intros Hpp Htruthy. unfold ai_move.
  destruct (is_game_over (g_board g)); [by left|].
  destruct (self_play g || negb (self_play g) && not_player_turn g);
    [|by left].
  destruct (if negb (bool_decide (turn (g_board g) = WHITE)) && self_play g
            then qtable2 g else Some (qtable1 g)) as [t|]; [|by left].
  destruct (compute_best_move_run Hpp (make_ai t) times
              (mkWorld (g_board g) [])) as (tr & _ & ->).
  cbn [board]. unfold decision_result.
  pose proof (driver_result_legal (make_ai t) times (g_board g)) as Hlegal.
  destruct (driver_result (make_ai t) times (g_board g)) as [[mv|] tree];
    [|by left].
  specialize (Hlegal mv Htruthy eq_refl).
  rewrite (Htruthy mv Hlegal). cbn. rewrite (Htruthy mv Hlegal).
  right. exists mv. cbn.
  rewrite length_app. cbn. repeat split; try done. lia.
Qed.

Lemma ai_move_plays_legal_move_witness :
  let g := TreeGame.self_play_start in
  @pop_undoes_push TreeGame.TreeBoard nat _ ∧
  (∀ m, m ∈ legal_moves (g_board g) → move_bool m = true) ∧
  g_board (ai_move TreeGame.frozen_clock g) ≠ g_board g ∧
  ∃ mv : nat,
    mv ∈ legal_moves (g_board g) ∧
    g_board (ai_move TreeGame.frozen_clock g) = push (g_board g) mv.
Proof.
  intros g.
  assert (H2 : ∀ m, m ∈ legal_moves (g_board g) → move_bool m = true) by done.
  split; [exact tree_pop_push|]. split; [exact H2|].
  assert (Hne : g_board (ai_move TreeGame.frozen_clock g) ≠ g_board g)
    by (vm_compute; discriminate).
  split; [exact Hne|].
  destruct (ai_move_plays_legal_move TreeGame.frozen_clock g tree_pop_push H2)
    as [[Hsame _]|(mv & Hmv & _ & Hb & _)]; [exfalso; exact (Hne Hsame)|].
  exists mv. split; [exact Hmv|exact Hb].
Defined.

(** X21. The shaping update of a move goes to the table of the side that
    moves: against the human only the first table can change; in
    self-play a move of White leaves the second table as it is and a
    move of Black leaves the first table as it is. *)
Theorem ai_move_updates_movers_table {Board Move : Type}
    `{RulesEngine Board Move} `{EqDecision Move}
    (times : nat → Q) (g : Game Board) :
  (self_play g = false ∨ turn (g_board g) = WHITE →
   qtable2 (ai_move times g) = qtable2 g) ∧
  (self_play g = true → turn (g_board g) = BLACK →
   qtable1 (ai_move times g) = qtable1 g).
Proof.
  unfold ai_move. split.
  - intros Hfirst.
    destruct (is_game_over (g_board g)); [done|].
    destruct (self_play g || negb (self_play g) && not_player_turn g); [|done].
    assert (Hsecond : negb (bool_decide (turn (g_board g) = WHITE))
                      && self_play g = false).
    { destruct Hfirst as [-> | ->]; [by rewrite andb_false_r|].
      by rewrite bool_decide_eq_true_2. }
    rewrite Hsecond.
    destruct (compute_best_move _ _ _) as [[[mv tree] t'] w].
    destruct mv as [mv|]; [destruct (move_bool mv)|]; done.
  - intros Hself Hblack.
    destruct (is_game_over (g_board g)); [done|].
    destruct (self_play g || negb (self_play g) && not_player_turn g); [|done].
    assert (Hsecond : negb (bool_decide (turn (g_board g) = WHITE))
                      && self_play g = true).
    { rewrite Hself, Hblack. by rewrite bool_decide_eq_false_2. }
    rewrite Hsecond. destruct (qtable2 g) as [t2|]; [|done].
    destruct (compute_best_move _ _ _) as [[[mv tree] t'] w].
    destruct mv as [mv|]; [destruct (move_bool mv)|]; done.
Qed.

Lemma ai_move_updates_movers_table_witness :
  let g := TreeGame.self_play_start in
  turn (g_board g) = WHITE ∧
  qtable1 (ai_move TreeGame.frozen_clock g) ≠ qtable1 g ∧
  qtable2 (ai_move TreeGame.frozen_clock g) = qtable2 g.
Proof.
  intros g. assert (Hw : turn (g_board g) = WHITE) by reflexivity.
  split; [exact Hw|].
  split.
  - intros Heq. apply (f_equal (λ t, entry t "root" "a")) in Heq.
    vm_compute in Heq. discriminate.
  - destruct (ai_move_updates_movers_table TreeGame.frozen_clock g) as [H2 _].
    apply H2. right. exact Hw.
Defined.
